(** * Amortization schedule generator of the mortgage planner

    A shallow embedding of [calculateSchedule] (src/app/page.tsx) and the
    properties of the month-by-month ledger it produces.

    Numbers.  The amounts of the program are JavaScript numbers, that is,
    IEEE 754 doubles.  The generator is embedded twice.

    - Module [Binary64] is the program as it runs.  Every amount is a
      [spec_float] and every operation is the correctly rounded binary64
      operation of [SpecFloat] (53 bits of precision), so rounding,
      overflow to Infinity, NaN and the two zeros are all there.  The
      properties that depend on any of these are stated and proved on this
      model, from lemmas on the rounding of [SpecFloat] that are proved
      below.
    - The definitions outside the module repeat the generator over exact
      rationals [Qc]; override values, the one place where the source
      itself tests for non-finite numbers, have type [number] (finite,
      NaN or infinite).  This reading has no rounding and no overflow.  It
      is kept for the properties that rest on the control flow, on the
      month counter or on a case analysis of min and max only.

    Dates.  [startMonth] is taken as the two numbers of a "YYYY-MM" string
    and a date is a year and a month.  The fall-back of [parseMonthInput]
    to the current date (for a string without two numbers), the day of
    the month and the range of JavaScript dates are outside the model;
    no property below that holds for all inputs is about due dates.

    The loop is given as the function [while_loop], defined by recursion
    on the distance of the month index to its cap, and as the relation
    [loop_run]; the function is proved to produce rows that the relation
    accepts, and the properties of the schedule are proved by induction
    on the relation. *)

From Stdlib Require Import ZArith QArith Qcanon Qround Lia Lqa Sorted SpecFloat.
From stdpp Require Import base numbers list gmap strings.
From Equations Require Import Equations.
From Equations.Prop Require Import Logic.

Local Open Scope Z_scope.
Local Open Scope Qc_scope.

(** * The generator on exact rationals *)

(** ** Numbers *)

(** A JavaScript number as stored in the override map. *)
Inductive number : Type :=
| Finite (q : Qc)
| NaN
| Infinity
| NegInfinity.

(** [Number.isFinite]. *)
Definition Number_isFinite (n : number) : bool :=
  match n with
  | Finite _ => true
  | _ => false
  end.

(** [Math.max] and [Math.min] on two finite arguments. *)
Definition Math_max (a b : Qc) : Qc := if decide (a < b) then b else a.
Definition Math_min (a b : Qc) : Qc := if decide (b < a) then b else a.

(** The comparisons [a <= b] and [a > b] of the source, as booleans. *)
Definition leb (a b : Qc) : bool := bool_decide (a ≤ b).
Definition gtb (a b : Qc) : bool := bool_decide (b < a).

(** ** Dates

    The generator only builds dates that fall on the first day of a month,
    so a date is a year and a zero-based month.  [new_Date] follows the
    [Date] constructor: a month outside 0..11 carries into the year, and a
    year in 0..99 denotes 1900 + year. *)

Record Date : Type := { year : Z; month : Z }.

Definition new_Date (y m : Z) : Date :=
  let y' := if bool_decide (0 ≤ y ≤ 99)%Z then (1900 + y)%Z else y in
  {| year := (y' + m `div` 12)%Z; month := (m `mod` 12)%Z |}.

(** [parseMonthInput], on the two numbers that [value.split('-').map(Number)]
    yields for a "YYYY-MM" string. *)
Definition parseMonthInput (value : Z * Z) : Date :=
  let '(y, m) := value in new_Date y (m - 1).

(** [addMonths]: [setMonth(getMonth() + count)] on a first-of-month date. *)
Definition addMonths (date : Date) (count : Z) : Date :=
  {| year := (year date + (month date + count) `div` 12)%Z;
     month := ((month date + count) `mod` 12)%Z |}.

(** ** Data model *)

(** [ActualPaymentsMap = Record<number, number>]: month index to payment. *)
Abbreviation ActualPaymentsMap := (gmap Z number).

Record ScheduleRow : Type := {
  monthIndex : Z;
  dueDate : Date;
  plannedPayment : Qc;
  plannedPrincipal : Qc;
  plannedInterest : Qc;
  actualPayment : Qc;
  interestPaid : Qc;
  principalPaid : Qc;
  extraPayment : Qc;
  shortfall : Qc;
  balanceAfter : Qc
}.

Definition epsilon : Qc := Q2Qc (1 # 100).

(** ** The loop of [calculateSchedule] *)

Section Loop.

Variable termMonths : Qc.
Variable monthlyRate : Qc.
Variable overrides : ActualPaymentsMap.

(** The guard of the [while] loop. *)
Definition loop_condition (balance : Qc) (index : Z) : bool :=
  (leb (Qc_of_Z index) termMonths || gtb balance epsilon)
  && bool_decide (index < 1200)%Z.

(** The row pushed by one iteration that starts with [balance] owed in
    month [index]. *)
Definition computeRow (balance : Qc) (index : Z) (due : Date) : ScheduleRow :=
  let monthsRemaining := Math_max (termMonths - Qc_of_Z index + 1) 1 in
  let plannedPrincipal := balance / monthsRemaining in
  let plannedInterest := balance * monthlyRate in
  let plannedPayment := plannedPrincipal + plannedInterest in
  let overrideValue := overrides !! index in
  let actualPayment :=
    match overrideValue with
    | Some (Finite v) => v
    | _ => plannedPayment
    end in
  let interestPaid := Math_min actualPayment plannedInterest in
  let principalPaid := Math_max (actualPayment - interestPaid) 0 in
  let principalPaid := if gtb principalPaid balance then balance else principalPaid in
  let balanceAfter := Math_max (balance - principalPaid) 0 in
  let extraPayment := Math_max (actualPayment - plannedPayment) 0 in
  let shortfall := Math_max (plannedPayment - actualPayment) 0 in
  {| monthIndex := index;
     dueDate := due;
     plannedPayment := plannedPayment;
     plannedPrincipal := Math_min plannedPrincipal balance;
     plannedInterest := plannedInterest;
     actualPayment := actualPayment;
     interestPaid := interestPaid;
     principalPaid := principalPaid;
     extraPayment := extraPayment;
     shortfall := shortfall;
     balanceAfter := balanceAfter |}.

(** The [while] loop, on its four mutable variables.  It terminates
    because every iteration increases [index] and the guard requires
    [index < 1200]. *)
Equations? while_loop (schedule : list ScheduleRow) (balance : Qc)
    (index : Z) (due : Date) : list ScheduleRow
    by wf (Z.to_nat (1200 - index)) lt :=
  while_loop schedule balance index due with inspect (loop_condition balance index) := {
    | exist _ false _ => schedule
    | exist _ true Hguard =>
        let row := computeRow balance index due in
        let schedule' := schedule ++ [row] in
        if leb (balanceAfter row) epsilon then schedule'
        else while_loop schedule' (balanceAfter row) (index + 1) (addMonths due 1) }.
Proof.
  unfold loop_condition in Hguard.
  apply andb_true_iff in Hguard as [_ Hlt%bool_decide_eq_true]. lia.
Qed.

End Loop.

(** ** [calculateSchedule] *)

Definition calculateSchedule (principal annualRate termMonths : Qc)
    (startMonth : Z * Z) (overrides : ActualPaymentsMap) : list ScheduleRow :=
  if leb principal 0 || leb termMonths 0 then []
  else
    let firstDueDate := parseMonthInput startMonth in
    let monthlyRate := annualRate / Qc_of_Z 100 / Qc_of_Z 12 in
    while_loop termMonths monthlyRate overrides [] principal 1 firstDueDate.

(** ** The loop as a relation

    [loop_run balance index due rows]: started with [balance] owed in month
    [index], the loop pushes exactly [rows] before it exits, either because
    its guard fails or through the [break] that follows a settled balance. *)

Section Run.

Variable termMonths : Qc.
Variable monthlyRate : Qc.
Variable overrides : ActualPaymentsMap.

Local Abbreviation guard := (loop_condition termMonths).
Local Abbreviation row_of := (computeRow termMonths monthlyRate overrides).

Inductive loop_run : Qc -> Z -> Date -> list ScheduleRow -> Prop :=
| run_exit balance index due :
    guard balance index = false ->
    loop_run balance index due []
| run_break balance index due :
    guard balance index = true ->
    balanceAfter (row_of balance index due) ≤ epsilon ->
    loop_run balance index due [row_of balance index due]
| run_next balance index due rows :
    guard balance index = true ->
    epsilon < balanceAfter (row_of balance index due) ->
    loop_run (balanceAfter (row_of balance index due)) (index + 1)
             (addMonths due 1) rows ->
    loop_run balance index due (row_of balance index due :: rows).

End Run.

(** ** Vocabulary of the properties *)

(** The payment that the override map prescribes, given the planned one. *)
Definition paymentFor (overrideValue : option number) (planned : Qc) : Qc :=
  match overrideValue with
  | Some v => if Number_isFinite v
              then match v with Finite q => q | _ => planned end
              else planned
  | None => planned
  end.

(** The balance that enters each month: the principal, then the balance
    left by each row in turn. *)
Definition enteringBalances (principal : Qc) (rows : list ScheduleRow) : list Qc :=
  principal :: map balanceAfter rows.

(** An override of zero for every month that the loop can reach. *)
Definition zeroPayments : ActualPaymentsMap :=
  list_to_map ((fun i => (i, Finite 0)) <$> seqZ 1 1199).

(** ** The generator in double precision

    The numbers of the source are IEEE 754 doubles.  This module embeds
    [calculateSchedule] with the binary64 operations of [SpecFloat] (53
    bits of precision, correctly rounded, with Infinity, NaN and signed
    zeros), so that it computes what the program computes. *)

Module Binary64.

Definition prec : Z := 53.
Definition emax : Z := 1024.

Definition add : spec_float -> spec_float -> spec_float := SFadd prec emax.
Definition sub : spec_float -> spec_float -> spec_float := SFsub prec emax.
Definition mul : spec_float -> spec_float -> spec_float := SFmul prec emax.
Definition div : spec_float -> spec_float -> spec_float := SFdiv prec emax.
Definition leb (a b : spec_float) : bool := SFleb a b.
Definition gtb (a b : spec_float) : bool := SFltb b a.

(** The double that an integer denotes, and the one nearest to [n / d]
    (a decimal literal such as 3.54 is the double nearest to 354 / 100). *)
Definition of_Z (n : Z) : spec_float := binary_normalize prec emax n 0 false.
Definition decimal (n d : Z) : spec_float := div (of_Z n) (of_Z d).

Definition Number_isFinite (x : spec_float) : bool :=
  match x with
  | S754_zero _ | S754_finite _ _ _ => true
  | S754_infinity _ | S754_nan => false
  end.

Definition Number_isNaN (x : spec_float) : bool :=
  match x with
  | S754_nan => true
  | _ => false
  end.

(** [Math.max] and [Math.min]: NaN if an argument is NaN, and -0 below +0. *)
Definition Math_max (a b : spec_float) : spec_float :=
  match SFcompare a b with
  | None => S754_nan
  | Some Lt => b
  | Some Gt => a
  | Some Eq => match a with S754_zero true => b | _ => a end
  end.

Definition Math_min (a b : spec_float) : spec_float :=
  match SFcompare a b with
  | None => S754_nan
  | Some Lt => a
  | Some Gt => b
  | Some Eq => match a with S754_zero false => b | _ => a end
  end.

(** [Math.round]: the integer nearest to [x], a tie going up; -0 for a
    negative [x] that rounds to zero; [x] itself when it is NaN, infinite
    or a zero.  A finite double with a non-negative exponent is an integer
    already; otherwise [x] is [m / 2 ^ k] up to sign, and the floor of
    [x + 1/2] is taken on integers. *)
Definition Math_round (x : spec_float) : spec_float :=
  match x with
  | S754_finite s m e =>
      if (0 <=? e)%Z then x
      else
        let n := ((cond_Zopp s (2 * Zpos m) + 2 ^ (- e)) / 2 ^ (- e + 1))%Z in
        if (n =? 0)%Z then S754_zero s else of_Z n
  | _ => x
  end.

Record ScheduleRow : Type := {
  monthIndex : Z;
  dueDate : Date;
  plannedPayment : spec_float;
  plannedPrincipal : spec_float;
  plannedInterest : spec_float;
  actualPayment : spec_float;
  interestPaid : spec_float;
  principalPaid : spec_float;
  extraPayment : spec_float;
  shortfall : spec_float;
  balanceAfter : spec_float
}.

(** The row pushed by one iteration.  The month index is a double that
    only takes the integer values 1 .. 1200, which are exact; it is kept
    as an integer and converted where the source computes with it. *)
Definition computeRow (termMonths monthlyRate : spec_float)
    (overrides : gmap Z spec_float)
    (balance : spec_float) (index : Z) (due : Date) : ScheduleRow :=
  let monthsRemaining :=
    Math_max (add (sub termMonths (of_Z index)) (of_Z 1)) (of_Z 1) in
  let plannedPrincipal := div balance monthsRemaining in
  let plannedInterest := mul balance monthlyRate in
  let plannedPayment := add plannedPrincipal plannedInterest in
  let overrideValue := overrides !! index in
  let actualPayment :=
    match overrideValue with
    | Some v => if Number_isFinite v then v else plannedPayment
    | None => plannedPayment
    end in
  let interestPaid := Math_min actualPayment plannedInterest in
  let principalPaid := Math_max (sub actualPayment interestPaid) (of_Z 0) in
  let principalPaid := if gtb principalPaid balance then balance else principalPaid in
  let balanceAfter := Math_max (sub balance principalPaid) (of_Z 0) in
  let extraPayment := Math_max (sub actualPayment plannedPayment) (of_Z 0) in
  let shortfall := Math_max (sub plannedPayment actualPayment) (of_Z 0) in
  {| monthIndex := index;
     dueDate := due;
     plannedPayment := plannedPayment;
     plannedPrincipal := Math_min plannedPrincipal balance;
     plannedInterest := plannedInterest;
     actualPayment := actualPayment;
     interestPaid := interestPaid;
     principalPaid := principalPaid;
     extraPayment := extraPayment;
     shortfall := shortfall;
     balanceAfter := balanceAfter |}.

(** [epsilon = 1e-2]: the double nearest to 1 / 100. *)
Definition epsilon : spec_float := decimal 1 100.

Section Loop.

Variable termMonths : spec_float.
Variable monthlyRate : spec_float.
Variable overrides : gmap Z spec_float.

(** The guard of the [while] loop. *)
Definition loop_condition (balance : spec_float) (index : Z) : bool :=
  (leb (of_Z index) termMonths || gtb balance epsilon)
  && bool_decide (index < 1200)%Z.

(** The [while] loop, on its four mutable variables. *)
Equations? while_loop (schedule : list ScheduleRow) (balance : spec_float)
    (index : Z) (due : Date) : list ScheduleRow
    by wf (Z.to_nat (1200 - index)) lt :=
  while_loop schedule balance index due with inspect (loop_condition balance index) := {
    | exist _ false _ => schedule
    | exist _ true Hguard =>
        let row := computeRow termMonths monthlyRate overrides balance index due in
        let schedule' := schedule ++ [row] in
        if leb (balanceAfter row) epsilon then schedule'
        else while_loop schedule' (balanceAfter row) (index + 1) (addMonths due 1) }.
Proof.
  unfold loop_condition in Hguard.
  apply andb_true_iff in Hguard as [_ Hlt%bool_decide_eq_true]. lia.
Qed.

(** The loop as a relation: started with [balance] owed in month [index],
    the loop pushes exactly [rows] before it exits, either because its
    guard fails or through the [break] that follows a settled balance. *)
Inductive loop_run : spec_float -> Z -> Date -> list ScheduleRow -> Prop :=
| run_exit balance index due :
    loop_condition balance index = false ->
    loop_run balance index due []
| run_break balance index due :
    loop_condition balance index = true ->
    leb (balanceAfter (computeRow termMonths monthlyRate overrides balance index due))
        epsilon = true ->
    loop_run balance index due
      [computeRow termMonths monthlyRate overrides balance index due]
| run_next balance index due rows :
    loop_condition balance index = true ->
    leb (balanceAfter (computeRow termMonths monthlyRate overrides balance index due))
        epsilon = false ->
    loop_run (balanceAfter (computeRow termMonths monthlyRate overrides balance index due))
             (index + 1) (addMonths due 1) rows ->
    loop_run balance index due
      (computeRow termMonths monthlyRate overrides balance index due :: rows).

End Loop.

(** [calculateSchedule] on doubles.  A NaN principal or term passes the
    guard, as [NaN <= 0] is false. *)
Definition calculateSchedule (principal annualRate termMonths : spec_float)
    (startMonth : Z * Z) (overrides : gmap Z spec_float) : list ScheduleRow :=
  if leb principal (of_Z 0) || leb termMonths (of_Z 0) then []
  else
    let firstDueDate := parseMonthInput startMonth in
    let monthlyRate := div (div annualRate (of_Z 100)) (of_Z 12) in
    while_loop termMonths monthlyRate overrides [] principal 1 firstDueDate.

(** *** Vocabulary of the properties *)

(** The balance that enters each month, and each row paired with it. *)
Definition enteringBalances (principal : spec_float) (rows : list ScheduleRow)
    : list spec_float :=
  principal :: map balanceAfter rows.

Definition withEntering (principal : spec_float) (rows : list ScheduleRow)
    : list (ScheduleRow * spec_float) :=
  zip rows (enteringBalances principal rows).

(** The payment that the override map prescribes, given the planned one. *)
Definition paymentFor (overrideValue : option spec_float) (planned : spec_float)
    : spec_float :=
  match overrideValue with
  | Some v => if Number_isFinite v then v else planned
  | None => planned
  end.

(** A double in the representation of [SpecFloat]: the mantissa of a
    finite number has at most 53 digits and its exponent is the one that
    its digits call for, between -1074 and 971.  Every double has exactly
    one such representation; the predicate rules out the terms of
    [spec_float] that denote no double. *)
Definition valid_double (x : spec_float) : Prop := valid_binary prec emax x = true.

(** The weaker fact that holds of every rounded result. *)
Definition well_formed (x : spec_float) : Prop :=
  match x with
  | S754_finite _ m e => (Zdigits2 (Zpos m) <= prec /\ emin prec emax <= e)%Z
  | _ => True
  end.

(** [x] is not NaN and carries the sign [sx]. *)
Definition signed (sx : bool) (x : spec_float) : Prop :=
  match x with
  | S754_zero s | S754_infinity s | S754_finite s _ _ => s = sx
  | S754_nan => False
  end.

(** [x] is +0, a positive double or +Infinity; [positive_double] excludes +0. *)
Definition nonneg (x : spec_float) : Prop := signed false x.

Definition positive_double (x : spec_float) : Prop :=
  match x with
  | S754_finite false _ _ | S754_infinity false => True
  | _ => False
  end.

Definition is_zero (x : spec_float) : Prop :=
  match x with
  | S754_zero _ => True
  | _ => False
  end.

(** What the loop can hold in [balance] when an iteration starts: NaN or a
    positive double. *)
Definition entering (balance : spec_float) : Prop :=
  balance = S754_nan \/ (valid_double balance /\ positive_double balance).

(** *** Vocabulary of rounding *)

(** The number of digits that [shr_fexp] drops from a mantissa. *)
Definition dropped (m e : Z) : Z := (fexp prec emax (Zdigits2 m + e) - e)%Z.

(** The second half of [binary_round_aux]: the rounded mantissa is shifted
    once more if rounding gave it one digit too many, and the result is
    classified. *)
Definition finish (sx : bool) (m e : Z) : spec_float :=
  let '(mrs, e') := shr_fexp prec emax m e loc_Exact in
  match shr_m mrs with
  | Z0 => S754_zero sx
  | Zpos m' => if (e' <=? emax - prec)%Z then S754_finite sx m' e' else S754_infinity sx
  | Zneg _ => S754_nan
  end.

(** The mantissa and the exponent that [finish] arrives at. *)
Definition finish_m (m e : Z) : Z :=
  if (0 <? dropped m e)%Z then (m / 2 ^ dropped m e)%Z else m.
Definition finish_e (m e : Z) : Z :=
  if (0 <? dropped m e)%Z then fexp prec emax (Zdigits2 m + e) else e.

(** The difference of the aligned mantissas in [SFsub]. *)
Definition aligned_diff (mb : positive) (eb : Z) (mp : positive) (ep : Z) : Z :=
  (Zpos (fst (shl_align mb eb (Z.min eb ep)))
   - Zpos (fst (shl_align mp ep (Z.min eb ep))))%Z.

(** *** The page on doubles

    [termMonths = Math.max(Math.round(termYears * 12), 1)], and the two
    handlers that write overrides; [Number] (text to number) and
    [toFixed(2)] (number to text) are the built-in conversions, taken as
    parameters. *)

Module Page.

Definition termMonths (termYears : spec_float) : spec_float :=
  Math_max (Math_round (mul termYears (of_Z 12))) (of_Z 1).

(** The state that the handlers write: the override map and the text of
    the payment inputs. *)
Record Edits : Type := {
  overrides : gmap Z spec_float;
  inputValues : gmap Z string
}.

Section Handlers.

Variable Number : string -> spec_float.
Variable toFixed2 : spec_float -> string.

(** [!value] holds for the empty string only. *)
Definition handleActualPaymentChange (index : Z) (value : string)
    (prev : Edits) : Edits :=
  let numeric := Number value in
  {| inputValues := <[index := value]> (inputValues prev);
     overrides :=
       if bool_decide (value = EmptyString) || Number_isNaN numeric
       then delete index (overrides prev)
       else <[index := numeric]> (overrides prev) |}.

(** The sum [plannedPayment + amount] is stored as it comes out, without a
    test: it can be Infinity or NaN. *)
Definition handleApplyExtra (base : list ScheduleRow) (amount : spec_float)
    (prev : Edits) : Edits :=
  {| overrides :=
       foldl (fun next row =>
                <[monthIndex row := add (plannedPayment row) amount]> next)
             (overrides prev) base;
     inputValues :=
       foldl (fun newInputValues row =>
                <[monthIndex row := toFixed2 (add (plannedPayment row) amount)]>
                  newInputValues)
             ∅ base |}.

End Handlers.

End Page.

End Binary64.

(** The loan on which amounts overflow: 1e308 at 2400 % over 12 months,
    without overrides. *)
Definition overflowing_loan : list Binary64.ScheduleRow :=
  Binary64.calculateSchedule (Binary64.of_Z (10 ^ 308)) (Binary64.of_Z 2400)
    (Binary64.of_Z 12) (2025%Z, 12%Z) ∅.

(** An override of zero for every month that the loop can reach. *)
Definition zeroPayments64 : gmap Z spec_float :=
  list_to_map ((fun i => (i, Binary64.of_Z 0)) <$> seqZ 1 1199).

(** ** The handlers of the page, on the exact reading

    The handlers are modelled as functions on the two pieces of state they
    write; [Number] (text to number) and [toFixed(2)] (number to text) are
    the built-in conversions, taken as parameters. *)

(** [Number.isNaN]. *)
Definition Number_isNaN (n : number) : bool :=
  match n with
  | NaN => true
  | _ => false
  end.

Module MortgagePlannerPage.

(** The state that the handlers write: the override map and the text of
    the payment inputs. *)
Record Edits : Type := {
  overrides : ActualPaymentsMap;
  inputValues : gmap Z string
}.

Section Handlers.

Variable Number : string -> number.
Variable toFixed2 : Qc -> string.

(** [!value] holds for the empty string only. *)
Definition handleActualPaymentChange (index : Z) (value : string)
    (prev : Edits) : Edits :=
  let numeric := Number value in
  {| inputValues := <[index := value]> (inputValues prev);
     overrides :=
       if bool_decide (value = EmptyString) || Number_isNaN numeric
       then delete index (overrides prev)
       else <[index := numeric]> (overrides prev) |}.

(** The input texts are rebuilt from nothing, the overrides on top of the
    previous ones. *)
Definition handleApplyExtra (base : list ScheduleRow) (amount : Qc)
    (prev : Edits) : Edits :=
  {| overrides :=
       foldl (fun next row =>
                <[monthIndex row := Finite (plannedPayment row + amount)]> next)
             (overrides prev) base;
     inputValues :=
       foldl (fun newInputValues row =>
                <[monthIndex row := toFixed2 (plannedPayment row + amount)]>
                  newInputValues)
             ∅ base |}.

End Handlers.

End MortgagePlannerPage.

(** * Lemmas on the exact reading *)

(** ** Arithmetic on [Qc] *)

Lemma Qc_this_plus (x y : Qc) : (this (x + y) == this x + this y)%Q.
Proof. apply Qred_correct. Qed.

Lemma Qc_this_minus (x y : Qc) : (this (x - y) == this x - this y)%Q.
Proof. unfold Qcminus, Qcopp, Qcplus. simpl. rewrite !Qred_correct. reflexivity. Qed.

Lemma Qc_this_opp (x : Qc) : (this (- x) == - this x)%Q.
Proof. apply Qred_correct. Qed.

Lemma Qc_this_mult (x y : Qc) : (this (x * y) == this x * this y)%Q.
Proof. apply Qred_correct. Qed.

Lemma Qc_this_0 : (this 0 == 0)%Q.
Proof. reflexivity. Qed.

Lemma Qc_this_1 : (this 1 == 1)%Q.
Proof. reflexivity. Qed.

Lemma Qc_eq_this (x y : Qc) : x = y <-> (this x == this y)%Q.
Proof. split; [intros ->; reflexivity | apply Qc_is_canon]. Qed.

(** Linear goals over [Qc] are moved to [Q] and closed by [lra]. *)
Ltac qc_lra :=
  rewrite ?Qc_eq_this in *;
  unfold Qcle, Qclt in *;
  repeat (progress rewrite ?Qc_this_minus, ?Qc_this_plus, ?Qc_this_opp,
            ?Qc_this_mult, ?Qc_this_0, ?Qc_this_1 in * );
  lra.

Lemma leb_true (a b : Qc) : leb a b = true <-> a ≤ b.
Proof. unfold leb. apply bool_decide_eq_true. Qed.

Lemma leb_false (a b : Qc) : leb a b = false <-> b < a.
Proof. unfold leb. rewrite bool_decide_eq_false. symmetry. apply Qclt_nge. Qed.

Section Facts.

Variable termMonths : Qc.
Variable monthlyRate : Qc.
Variable overrides : ActualPaymentsMap.

Local Abbreviation guard := (loop_condition termMonths).
Local Abbreviation row_of := (computeRow termMonths monthlyRate overrides).
Local Abbreviation loop := (while_loop termMonths monthlyRate overrides).
Local Abbreviation run := (loop_run termMonths monthlyRate overrides).

(** ** The loop function and the relation agree *)

Lemma loop_condition_lt balance index :
  guard balance index = true -> (index < 1200)%Z.
Proof.
  unfold loop_condition. intros [_ H%bool_decide_eq_true]%andb_true_iff. done.
Qed.

(** One unfolding of the loop. *)
Lemma while_loop_step schedule balance index due :
  loop schedule balance index due =
  if guard balance index then
    let row := row_of balance index due in
    if leb (balanceAfter row) epsilon then schedule ++ [row]
    else loop (schedule ++ [row]) (balanceAfter row) (index + 1) (addMonths due 1)
  else schedule.
Proof.
  rewrite while_loop_equation_1. unfold while_loop_clause_1.
  enough (Hcase : forall (b : bool) (Hb : guard balance index = b),
    while_loop_unfold_clause_1 termMonths monthlyRate overrides schedule
      balance index (exist _ b Hb) due =
    if b then
      let row := row_of balance index due in
      if leb (balanceAfter row) epsilon then schedule ++ [row]
      else loop (schedule ++ [row]) (balanceAfter row) (index + 1) (addMonths due 1)
    else schedule) by apply Hcase.
  intros [] Hb; reflexivity.
Qed.

(** Every run of the loop returns the rows it started with, followed by
    rows that the relation accepts. *)
Lemma while_loop_spec schedule balance index due :
  exists rows,
    loop schedule balance index due = schedule ++ rows /\
    run balance index due rows.
Proof.
  remember (Z.to_nat (1200 - index)) as fuel eqn:Hfuel.
  revert schedule balance index due Hfuel.
  induction fuel as [fuel IH] using lt_wf_ind.
  intros schedule balance index due ->.
  rewrite while_loop_step.
  destruct (guard balance index) eqn:Hguard.
  - pose proof (loop_condition_lt _ _ Hguard) as Hlt.
    cbn zeta.
    destruct (leb (balanceAfter (row_of balance index due)) epsilon) eqn:Hleb.
    + exists [row_of balance index due]. split; [done |].
      apply run_break; [done | by apply leb_true].
    + destruct (IH (Z.to_nat (1200 - (index + 1))) ltac:(lia)
                  (schedule ++ [row_of balance index due])
                  (balanceAfter (row_of balance index due)) (index + 1)%Z
                  (addMonths due 1) eq_refl) as (rows & Heq & Hrun).
      exists (row_of balance index due :: rows). split.
      * rewrite Heq, <- app_assoc. done.
      * apply run_next; [done | by apply leb_false | done].
  - exists []. split; [by rewrite app_nil_r | by apply run_exit].
Qed.

Lemma while_loop_run balance index due :
  run balance index due (loop [] balance index due).
Proof.
  destruct (while_loop_spec [] balance index due) as (rows & -> & Hrun). done.
Qed.

(** ** Facts about a single row *)

Lemma row_monthIndex balance index due :
  monthIndex (row_of balance index due) = index.
Proof. reflexivity. Qed.

Lemma row_actualPayment balance index due :
  let row := row_of balance index due in
  actualPayment row = paymentFor (overrides !! index) (plannedPayment row).
Proof.
  unfold computeRow, paymentFor; cbn.
  destruct (overrides !! index) as [[]|]; reflexivity.
Qed.

(** ** Facts about the rows of a run *)

(** Row [k] of a run is the row computed from its entering balance, for
    month [index + k], due [k] months after the first due date. *)
Lemma run_lookup balance index due rows :
  run balance index due rows ->
  forall (k : nat) (r : ScheduleRow), rows !! k = Some r ->
  exists bal,
    enteringBalances balance rows !! k = Some bal /\
    r = row_of bal (index + Z.of_nat k)
          (Nat.iter k (fun d => addMonths d 1) due).
Proof.
  induction 1 as [b i d Hg | b i d Hg Hle | b i d rows Hg Hlt Hrun IH];
    intros k r Hk.
  - done.
  - destruct k as [|k]; [| done]. injection Hk as <-.
    exists b. by rewrite Z.add_0_r.
  - destruct k as [|k].
    + injection Hk as <-. exists b. by rewrite Z.add_0_r.
    + destruct (IH k r Hk) as (bal & Hbal & ->).
      exists bal. split; [done |].
      rewrite Nat.iter_succ_r.
      by replace (i + Z.of_nat (S k))%Z with (i + 1 + Z.of_nat k)%Z by lia.
Qed.

Lemma run_rows balance index due rows :
  run balance index due rows ->
  Forall (fun r => exists bal i d, r = row_of bal i d) rows.
Proof.
  induction 1; repeat constructor; eauto.
Qed.

(** The guard bounds the number of rows. *)
Lemma run_length balance index due rows :
  run balance index due rows ->
  (length rows <= Z.to_nat (1200 - index))%nat.
Proof.
  induction 1 as [b i d Hg | b i d Hg Hle | b i d rows Hg Hlt Hrun IH]; simpl.
  - lia.
  - apply loop_condition_lt in Hg. lia.
  - apply loop_condition_lt in Hg. lia.
Qed.

End Facts.

(** ** [calculateSchedule] and the relation *)

Lemma calculateSchedule_empty principal annualRate termMonths startMonth overrides :
  principal ≤ 0 \/ termMonths ≤ 0 ->
  calculateSchedule principal annualRate termMonths startMonth overrides = [].
Proof.
  intros H. unfold calculateSchedule.
  destruct H as [H%leb_true | H%leb_true]; rewrite H; [done |].
  by rewrite orb_true_r.
Qed.

Lemma calculateSchedule_run principal annualRate termMonths startMonth overrides :
  0 < principal -> 0 < termMonths ->
  loop_run termMonths (annualRate / Qc_of_Z 100 / Qc_of_Z 12) overrides
    principal 1 (parseMonthInput startMonth)
    (calculateSchedule principal annualRate termMonths startMonth overrides).
Proof.
  intros Hp%leb_false Ht%leb_false. unfold calculateSchedule.
  rewrite Hp, Ht. cbn. apply while_loop_run.
Qed.

(** Whatever the input, the result is empty or the rows of a run that
    starts from a positive principal in month 1. *)
Lemma calculateSchedule_cases principal annualRate termMonths startMonth overrides :
  calculateSchedule principal annualRate termMonths startMonth overrides = [] \/
  (0 < principal /\ 0 < termMonths /\
   loop_run termMonths (annualRate / Qc_of_Z 100 / Qc_of_Z 12) overrides
     principal 1 (parseMonthInput startMonth)
     (calculateSchedule principal annualRate termMonths startMonth overrides)).
Proof.
  destruct (decide (0 < principal)) as [Hp | Hp];
    [destruct (decide (0 < termMonths)) as [Ht | Ht] |].
  - right. auto using calculateSchedule_run.
  - left. apply calculateSchedule_empty. right. by apply Qcle_ngt.
  - left. apply calculateSchedule_empty. left. by apply Qcle_ngt.
Qed.

(** With a positive principal and a term of at least one month the first
    iteration always runs, on the principal. *)
Lemma calculateSchedule_head principal annualRate termMonths startMonth overrides :
  0 < principal -> 1 ≤ termMonths ->
  head (calculateSchedule principal annualRate termMonths startMonth overrides) =
  Some (computeRow termMonths (annualRate / Qc_of_Z 100 / Qc_of_Z 12) overrides
          principal 1 (parseMonthInput startMonth)).
Proof.
  intros Hp Ht.
  assert (0 < termMonths) as Ht' by qc_lra.
  pose proof (calculateSchedule_run principal annualRate termMonths startMonth
                overrides Hp Ht') as Hrun.
  inversion Hrun as [b i d Hg | b i d Hg Hle | b i d rows Hg Hlt Hrest]; try done.
  exfalso. unfold loop_condition in Hg.
  assert (leb (Qc_of_Z 1) termMonths = true) as Hle by (by apply leb_true).
  rewrite Hle in Hg. done.
Qed.

(** Row [k] of a schedule is the row of month [k + 1]. *)
Lemma calculateSchedule_monthIndex principal annualRate termMonths startMonth overrides :
  let rows := calculateSchedule principal annualRate termMonths startMonth overrides in
  map monthIndex rows = seqZ 1 (Z.of_nat (length rows)).
Proof.
  cbv zeta.
  destruct (calculateSchedule_cases principal annualRate termMonths startMonth
              overrides) as [Hnil | (Hp & Ht & Hrun)].
  - by rewrite Hnil.
  - set (rows := calculateSchedule _ _ _ _ _) in *.
    apply list_eq. intros k. rewrite list_lookup_fmap.
    destruct (rows !! k) as [r|] eqn:Hk; simpl.
    + destruct (run_lookup _ _ _ _ _ _ _ Hrun k r Hk) as (bal & _ & ->).
      apply lookup_lt_Some in Hk. symmetry.
      rewrite lookup_seqZ. split; [| lia]. by rewrite row_monthIndex.
    + apply lookup_ge_None in Hk. symmetry. apply lookup_seqZ_ge. lia.
Qed.

(** * Lemmas on doubles *)

Section Doubles.

Import Binary64.
Local Open Scope Z_scope.

Local Abbreviation fexp := (SpecFloat.fexp prec emax).
Local Abbreviation emin := (SpecFloat.emin prec emax).

Ltac fexp_lia :=
  unfold dropped, SpecFloat.fexp, SpecFloat.emin, prec, emax in *; lia.

Lemma digits2_pos_size p : digits2_pos p = Pos.size p.
Proof. induction p; simpl; congruence. Qed.

Lemma Zdigits2_log2 m : 0 < m -> Zdigits2 m = Z.log2 m + 1.
Proof.
  destruct m as [|p|p]; try lia. intros _. simpl.
  rewrite digits2_pos_size. destruct p; simpl; lia.
Qed.

Lemma Zdigits2_nonneg m : 0 <= Zdigits2 m.
Proof. destruct m; simpl; lia. Qed.

Lemma Zdigits2_pos m : 0 < m -> 0 < Zdigits2 m.
Proof. destruct m; simpl; lia. Qed.

Lemma Zdigits2_bounds m : 0 < m -> 2 ^ (Zdigits2 m - 1) <= m < 2 ^ Zdigits2 m.
Proof.
  intros Hm. rewrite Zdigits2_log2 by assumption.
  replace (Z.log2 m + 1 - 1) with (Z.log2 m) by lia.
  replace (Z.log2 m + 1) with (Z.succ (Z.log2 m)) by lia.
  apply Z.log2_spec. assumption.
Qed.

Lemma Zdigits2_le m n : 0 <= m <= n -> Zdigits2 m <= Zdigits2 n.
Proof.
  intros [Hm Hn]. destruct (Z.eq_dec m 0) as [->|].
  - apply Zdigits2_nonneg.
  - rewrite !Zdigits2_log2 by lia. pose proof (Z.log2_le_mono m n). lia.
Qed.

Lemma Zdigits2_lt_pow m d : 0 <= m -> 0 <= d -> (m < 2 ^ d <-> Zdigits2 m <= d).
Proof.
  intros Hm Hd. destruct (Z.eq_dec m 0) as [->|].
  - simpl. pose proof (Z.pow_pos_nonneg 2 d). lia.
  - rewrite Zdigits2_log2 by lia. rewrite Z.log2_lt_pow2 by lia. lia.
Qed.

Lemma Zdigits2_div m n : 0 <= m -> 0 <= n ->
  Zdigits2 (m / 2 ^ n) = Z.max 0 (Zdigits2 m - n).
Proof.
  intros Hm Hn. destruct (Z.eq_dec m 0) as [->|].
  - rewrite Z.div_0_l by (pose proof (Z.pow_pos_nonneg 2 n); lia). simpl. lia.
  - rewrite <- Z.shiftr_div_pow2 by assumption.
    assert (Hlog := Z.log2_shiftr m n ltac:(lia)).
    destruct (Z.eq_dec (Z.shiftr m n) 0) as [E|E].
    + rewrite E in *. simpl in *. rewrite Zdigits2_log2 by lia.
      assert (Z.log2 m < n); [|lia].
      apply Z.shiftr_eq_0_iff in E. lia.
    + assert (0 < Z.shiftr m n).
      { pose proof (Z.shiftr_nonneg m n). lia. }
      rewrite !Zdigits2_log2 by lia. rewrite Hlog.
      assert (n <= Z.log2 m); [|lia].
      destruct (Z_lt_le_dec (Z.log2 m) n); [|assumption].
      exfalso. apply E. apply Z.shiftr_eq_0; lia.
Qed.

Lemma Zdigits2_mul_pow m n : 0 < m -> 0 <= n ->
  Zdigits2 (m * 2 ^ n) = Zdigits2 m + n.
Proof.
  intros Hm Hn. assert (0 < 2 ^ n) by (apply Z.pow_pos_nonneg; lia).
  rewrite !Zdigits2_log2 by nia. rewrite Z.log2_mul_pow2 by lia. lia.
Qed.

(** ** Shifting right *)

Lemma shr_1_m mrs : 0 <= shr_m mrs -> shr_m (shr_1 mrs) = shr_m mrs / 2.
Proof.
  destruct mrs as [m r s]. simpl. intros Hm.
  destruct m as [|p|p]; try lia; [reflexivity|].
  rewrite <- Z.div2_div. destruct p; reflexivity.
Qed.

Lemma iter_pos_nat {A} (f : A -> A) p x :
  SpecFloat.iter_pos f p x = Nat.iter (Pos.to_nat p) f x.
Proof.
  revert x. induction p as [p IH|p IH|]; intros x; simpl SpecFloat.iter_pos.
  - rewrite !IH, Pos2Nat.inj_xI, Nat.iter_succ_r.
    replace (2 * Pos.to_nat p)%nat with (Pos.to_nat p + Pos.to_nat p)%nat by lia.
    now rewrite Nat.iter_add.
  - rewrite !IH, Pos2Nat.inj_xO.
    replace (2 * Pos.to_nat p)%nat with (Pos.to_nat p + Pos.to_nat p)%nat by lia.
    now rewrite Nat.iter_add.
  - reflexivity.
Qed.

Lemma iter_shr_m n mrs :
  0 <= shr_m mrs ->
  shr_m (Nat.iter n shr_1 mrs) = shr_m mrs / 2 ^ Z.of_nat n.
Proof.
  intros Hm. induction n as [|n IH].
  - simpl. now rewrite Z.div_1_r.
  - change (Nat.iter (S n) shr_1 mrs) with (shr_1 (Nat.iter n shr_1 mrs)). rewrite shr_1_m.
    + rewrite IH, Nat2Z.inj_succ, Z.pow_succ_r by lia.
      rewrite Z.div_div by (try apply Z.pow_pos_nonneg; lia).
      f_equal. lia.
    + rewrite IH. apply Z.div_pos; [assumption|apply Z.pow_pos_nonneg; lia].
Qed.

Lemma shr_fexp_keep m e l :
  dropped m e <= 0 ->
  shr_fexp prec emax m e l = (shr_record_of_loc m l, e).
Proof.
  unfold dropped, shr_fexp, shr. intros H.
  destruct (fexp (Zdigits2 m + e) - e) as [|p|p]; try reflexivity. lia.
Qed.

Lemma shr_record_of_loc_m m l : shr_m (shr_record_of_loc m l) = m.
Proof. destruct l as [|[]]; reflexivity. Qed.

Lemma shr_fexp_drop m e l :
  0 <= m -> 0 < dropped m e ->
  exists mrs,
    shr_fexp prec emax m e l = (mrs, fexp (Zdigits2 m + e)) /\
    shr_m mrs = m / 2 ^ dropped m e.
Proof.
  unfold dropped, shr_fexp. intros Hm Hn.
  set (n := fexp (Zdigits2 m + e) - e) in *.
  destruct n as [|p|p] eqn:En; try lia.
  unfold shr. rewrite iter_pos_nat.
  eexists. split.
  - f_equal. lia.
  - rewrite iter_shr_m by (rewrite shr_record_of_loc_m; assumption).
    rewrite shr_record_of_loc_m, positive_nat_Z. reflexivity.
Qed.

Lemma round_nearest_even_bounds m l :
  m <= round_nearest_even m l <= m + 1.
Proof. destruct l as [|[]]; simpl; try destruct (Z.even m); lia. Qed.

(** ** Rounding *)

Lemma binary_round_aux_finish sx mx ex lx :
  binary_round_aux prec emax sx mx ex lx =
  let '(mrs, e) := shr_fexp prec emax mx ex lx in
  finish sx (round_nearest_even (shr_m mrs) (loc_of_shr_record mrs)) e.
Proof.
  unfold binary_round_aux, finish.
  destruct (shr_fexp prec emax mx ex lx) as [mrs e]. reflexivity.
Qed.

Lemma finish_eq sx m e :
  0 <= m ->
  finish sx m e =
  match finish_m m e with
  | Z0 => S754_zero sx
  | Zpos m' => if finish_e m e <=? emax - prec
               then S754_finite sx m' (finish_e m e) else S754_infinity sx
  | Zneg _ => S754_nan
  end.
Proof.
  intros Hm. unfold finish, finish_m, finish_e.
  destruct (Z.ltb_spec 0 (dropped m e)) as [Hn|Hn].
  - destruct (shr_fexp_drop m e loc_Exact Hm Hn) as (mrs & -> & ->). reflexivity.
  - rewrite shr_fexp_keep by assumption. rewrite shr_record_of_loc_m. reflexivity.
Qed.

Lemma finish_m_nonneg m e : 0 <= m -> 0 <= finish_m m e.
Proof.
  intros Hm. unfold finish_m. destruct (0 <? dropped m e); [|assumption].
  apply Z_div_nonneg_nonneg; [assumption|]. apply Z.pow_nonneg. lia.
Qed.

Lemma finish_digits m e :
  0 <= m -> Zdigits2 (finish_m m e) <= prec /\ emin <= finish_e m e.
Proof.
  intros Hm. unfold finish_m, finish_e, dropped.
  destruct (Z.ltb_spec 0 (fexp (Zdigits2 m + e) - e)) as [Hn|Hn].
  - rewrite Zdigits2_div by lia. fexp_lia.
  - fexp_lia.
Qed.

Lemma finish_canonical m e :
  0 <= m -> 0 <= dropped m e -> 0 < finish_m m e ->
  fexp (Zdigits2 (finish_m m e) + finish_e m e) = finish_e m e.
Proof.
  intros Hm Hn. unfold finish_m, finish_e, dropped in *.
  destruct (Z.ltb_spec 0 (fexp (Zdigits2 m + e) - e)) as [Hd|Hd]; intros Hpos.
  - assert (Hdig : 0 < Zdigits2 (m / 2 ^ (fexp (Zdigits2 m + e) - e))).
    { apply Zdigits2_pos. assumption. }
    rewrite Zdigits2_div in * by lia.
    replace (Z.max 0 (Zdigits2 m - (fexp (Zdigits2 m + e) - e)) + fexp (Zdigits2 m + e))
      with (Zdigits2 m + e) by lia.
    reflexivity.
  - lia.
Qed.

(** ** Shape of the results *)

Lemma valid_finite s m e :
  valid_double (S754_finite s m e) <->
  fexp (Zdigits2 (Zpos m) + e) = e /\ e <= emax - prec.
Proof.
  unfold valid_double, valid_binary, bounded, canonical_mantissa.
  rewrite andb_true_iff, Z.eqb_eq, Z.leb_le. reflexivity.
Qed.

Lemma valid_wf x : valid_double x -> well_formed x.
Proof.
  destruct x as [| | |s m e]; simpl; auto.
  intros [Hc He]%valid_finite. cbn [Zdigits2] in *. fexp_lia.
Qed.

Lemma finish_wf sx m e : 0 <= m -> well_formed (finish sx m e).
Proof.
  intros Hm. rewrite finish_eq by assumption.
  destruct (finish_digits m e Hm) as [Hd He].
  destruct (finish_m m e) as [|p|p]; simpl; auto.
  destruct (_ <=? _); simpl; auto.
Qed.

Lemma finish_signed sx m e : 0 <= m -> signed sx (finish sx m e).
Proof.
  intros Hm. rewrite finish_eq by assumption.
  pose proof (finish_m_nonneg m e Hm).
  destruct (finish_m m e) as [|p|p]; simpl; auto; try lia.
  destruct (_ <=? _); simpl; auto.
Qed.

Lemma finish_valid sx m e : 0 <= m -> 0 <= dropped m e -> valid_double (finish sx m e).
Proof.
  intros Hm Hn. rewrite finish_eq by assumption.
  pose proof (finish_canonical m e Hm Hn) as Hc.
  destruct (finish_m m e) as [|p|p]; try reflexivity.
  destruct (Z.leb_spec (finish_e m e) (emax - prec)); try reflexivity.
  apply valid_finite. split; [apply Hc; lia|assumption].
Qed.

Lemma shr_fexp_nonneg m e l :
  0 <= m -> 0 <= shr_m (fst (shr_fexp prec emax m e l)).
Proof.
  intros Hm. destruct (Z_lt_le_dec 0 (dropped m e)) as [Hn|Hn].
  - destruct (shr_fexp_drop m e l Hm Hn) as (mrs & -> & Hs). simpl. rewrite Hs.
    apply Z_div_nonneg_nonneg; [assumption|]. apply Z.pow_nonneg. lia.
  - rewrite shr_fexp_keep by assumption. simpl. now rewrite shr_record_of_loc_m.
Qed.

Lemma binary_round_aux_wf sx mx ex lx :
  0 <= mx ->
  well_formed (binary_round_aux prec emax sx mx ex lx) /\
  signed sx (binary_round_aux prec emax sx mx ex lx).
Proof.
  intros Hm. rewrite binary_round_aux_finish.
  pose proof (shr_fexp_nonneg mx ex lx Hm) as Hs.
  destruct (shr_fexp prec emax mx ex lx) as [mrs e]. simpl in Hs.
  pose proof (round_nearest_even_bounds (shr_m mrs) (loc_of_shr_record mrs)).
  split; [apply finish_wf|apply finish_signed]; lia.
Qed.

Lemma Pos_iter_xO m d : Zpos (Pos.iter xO m d) = Zpos m * 2 ^ Zpos d.
Proof.
  rewrite <- Z.shiftl_mul_pow2 by lia. simpl.
  apply (Pos.iter_swap_gen _ _ Zpos xO (Z.mul 2)). reflexivity.
Qed.

Lemma shl_align_down mx ex ez :
  ez <= ex ->
  Zpos (fst (shl_align mx ex ez)) = Zpos mx * 2 ^ (ex - ez) /\
  snd (shl_align mx ex ez) = ez.
Proof.
  intros H. unfold shl_align. destruct (ez - ex) as [|p|p] eqn:E; try lia.
  - cbn [fst snd]. replace (ex - ez) with 0 by lia. rewrite Z.pow_0_r. lia.
  - cbn [fst snd]. rewrite Pos_iter_xO. replace (ex - ez) with (Zpos p) by lia. lia.
Qed.

Lemma shl_align_keep mx ex ez : ex <= ez -> shl_align mx ex ez = (mx, ex).
Proof.
  intros H. unfold shl_align. destruct (ez - ex) as [|p|p] eqn:E; try lia; reflexivity.
Qed.

(** [binary_round] on a positive integer: the exponent is the one that the
    digits call for; the mantissa is the integer part [m1] of the scaled
    number, or one more. *)
Lemma binary_round_struct sx (D : positive) ez :
  let e1 := fexp (Zdigits2 (Zpos D) + ez) in
  exists m1 m2,
    binary_round prec emax sx D ez = finish sx m2 e1 /\
    0 <= m1 /\ m1 <= m2 <= m1 + 1 /\
    (e1 <= ez -> m1 = Zpos D * 2 ^ (ez - e1) /\ m2 = m1) /\
    (ez < e1 -> m1 = Zpos D / 2 ^ (e1 - ez)) /\
    Zdigits2 m1 = Z.max 0 (Zdigits2 (Zpos D) + ez - e1).
Proof.
  intros e1. unfold binary_round.
  change (Zpos (digits2_pos D)) with (Zdigits2 (Zpos D)). fold e1.
  destruct (Z_le_gt_dec e1 ez) as [Hle|Hgt].
  - destruct (shl_align_down D ez e1 Hle) as [Hm He].
    destruct (shl_align D ez e1) as [mz ez']. cbn [fst snd] in Hm, He. subst ez'.
    assert (Hdig : Zdigits2 (Zpos mz) = Zdigits2 (Zpos D) + (ez - e1)).
    { rewrite Hm. apply Zdigits2_mul_pow; lia. }
    rewrite binary_round_aux_finish, shr_fexp_keep.
    2:{ unfold dropped. rewrite Hdig.
        replace (Zdigits2 (Zpos D) + (ez - e1) + e1) with (Zdigits2 (Zpos D) + ez) by lia.
        fold e1. lia. }
    exists (Zpos mz), (Zpos mz).
    split; [reflexivity|].
    repeat split; try lia.
    rewrite Hdig. pose proof (Zdigits2_pos (Zpos D)). lia.
  - rewrite shl_align_keep by lia.
    rewrite binary_round_aux_finish.
    assert (Hn : dropped (Zpos D) ez = e1 - ez) by reflexivity.
    destruct (shr_fexp_drop (Zpos D) ez loc_Exact) as (mrs & -> & Hm); try lia.
    fold e1. rewrite Hn in Hm.
    exists (shr_m mrs), (round_nearest_even (shr_m mrs) (loc_of_shr_record mrs)).
    pose proof (round_nearest_even_bounds (shr_m mrs) (loc_of_shr_record mrs)).
    assert (0 <= shr_m mrs).
    { rewrite Hm. apply Z_div_nonneg_nonneg; [lia|]. apply Z.pow_nonneg. lia. }
    repeat split; try lia.
    rewrite Hm, Zdigits2_div by lia. lia.
Qed.

Lemma binary_round_valid sx D ez : valid_double (binary_round prec emax sx D ez).
Proof.
  destruct (binary_round_struct sx D ez) as (m1 & m2 & -> & Hm1 & Hm2 & Hle & Hgt & Hdig).
  apply finish_valid; [lia|].
  unfold dropped.
  assert (Zdigits2 m1 <= Zdigits2 m2) by (apply Zdigits2_le; lia).
  fexp_lia.
Qed.

Lemma binary_round_signed sx D ez :
  signed sx (binary_round prec emax sx D ez) /\ well_formed (binary_round prec emax sx D ez).
Proof.
  destruct (binary_round_struct sx D ez) as (m1 & m2 & -> & Hm1 & Hm2 & _).
  split; [apply finish_signed|apply finish_wf]; lia.
Qed.

Lemma binary_round_opp sx D ez :
  binary_round prec emax (negb sx) D ez = SFopp (binary_round prec emax sx D ez).
Proof.
  unfold binary_round. destruct (shl_align _ _ _) as [mz ez'].
  unfold binary_round_aux.
  destruct (shr_fexp prec emax (Zpos mz) ez' loc_Exact) as [mrs e].
  destruct (shr_fexp prec emax _ e loc_Exact) as [mrs' e'].
  destruct (shr_m mrs'); try reflexivity.
  destruct (_ <=? _); reflexivity.
Qed.

(** ** Comparison *)

Lemma SFcompare_None x y : SFcompare x y = None <-> x = S754_nan \/ y = S754_nan.
Proof.
  destruct x as [| | |s m e], y as [| | |s' m' e']; simpl;
    split; intros H; try discriminate; auto; destruct H; discriminate.
Qed.

Lemma SFcompare_antisym x y c :
  SFcompare x y = Some c -> SFcompare y x = Some (CompOpp c).
Proof.
  destruct x as [[]|[]| |[] m e], y as [[]|[]| |[] m' e']; simpl;
    intros H; try discriminate; injection H as <-; try reflexivity.
  - f_equal. rewrite (Z.compare_antisym e e').
    destruct (e ?= e'); simpl; try reflexivity.
    rewrite !Pos.compare_cont_spec. simpl.
    rewrite (Pos.compare_antisym m m'). now destruct (m ?= m')%positive.
  - f_equal. rewrite (Z.compare_antisym e e').
    destruct (e ?= e'); simpl; try reflexivity.
    rewrite !Pos.compare_cont_spec. simpl.
    rewrite (Pos.compare_antisym m m'). now destruct (m ?= m')%positive.
Qed.

Lemma SFcompare_refl x : x <> S754_nan -> SFcompare x x = Some Eq.
Proof.
  destruct x as [[]|[]| |[] m e]; simpl; intros H; try reflexivity; try congruence.
  - rewrite Z.compare_refl, Pos.compare_cont_spec, Pos.compare_refl. reflexivity.
  - rewrite Z.compare_refl, Pos.compare_cont_spec, Pos.compare_refl. reflexivity.
Qed.

Lemma SFleb_finite m e m' e' :
  SFleb (S754_finite false m e) (S754_finite false m' e') = true <->
  e < e' \/ (e = e' /\ Zpos m <= Zpos m').
Proof.
  unfold SFleb. simpl. rewrite Pos.compare_cont_spec. simpl.
  destruct (Z.compare_spec e e') as [He|He|He].
  - destruct (Pos.compare_spec m m') as [Hm|Hm|Hm]; split; intros H;
      try discriminate; try reflexivity; lia.
  - split; [lia|reflexivity].
  - split; [discriminate|lia].
Qed.

(** ** Subtraction from a valid double *)

Lemma valid_normal m e :
  valid_double (S754_finite false m e) -> emin < e -> 2 ^ (prec - 1) <= Zpos m.
Proof.
  intros [Hc He]%valid_finite Hlt.
  assert (Hd : Zdigits2 (Zpos m) = prec) by fexp_lia.
  pose proof (Zdigits2_bounds (Zpos m) ltac:(lia)) as Hb. rewrite Hd in Hb. lia.
Qed.

Lemma aligned_diff_eq mb eb mp ep :
  aligned_diff mb eb mp ep =
  Zpos mb * 2 ^ (eb - Z.min eb ep) - Zpos mp * 2 ^ (ep - Z.min eb ep).
Proof.
  unfold aligned_diff.
  destruct (shl_align_down mb eb (Z.min eb ep)) as [-> _]; [lia|].
  destruct (shl_align_down mp ep (Z.min eb ep)) as [-> _]; [lia|].
  reflexivity.
Qed.

Lemma round_le_self sx (D : positive) ez mb eb :
  valid_double (S754_finite false mb eb) ->
  ez <= eb ->
  Zpos D < Zpos mb * 2 ^ (eb - ez) ->
  match binary_round prec emax sx D ez with
  | S754_finite _ m e => e < eb \/ (e = eb /\ Zpos m <= Zpos mb)
  | S754_zero _ => True
  | _ => False
  end.
Proof.
  intros Hv Hez HD.
  pose proof Hv as [Hc He]%valid_finite.
  destruct (binary_round_struct sx D ez) as (m1 & m2 & -> & Hm1 & Hm2 & Hle & Hgt & Hdig).
  set (e1 := fexp (Zdigits2 (Zpos D) + ez)) in *.
  assert (Hk : 0 < 2 ^ (eb - ez)) by (apply Z.pow_pos_nonneg; lia).
  assert (HdD : Zdigits2 (Zpos D) <= Zdigits2 (Zpos mb) + (eb - ez)).
  { rewrite <- Zdigits2_mul_pow by lia. apply Zdigits2_le. lia. }
  assert (He1 : e1 <= eb) by (subst e1; fexp_lia).
  rewrite finish_eq by lia.
  pose proof (finish_m_nonneg m2 e1 ltac:(lia)) as Hm3.
  destruct (Z.eq_dec e1 eb) as [Heq|Hne].
  - (* the same exponent as [b] *)
    assert (Hm2b : m2 <= Zpos mb).
    { destruct (Z_le_gt_dec e1 ez) as [H1|H1].
      - destruct (Hle H1) as [-> ->]. replace (ez - e1) with 0 by lia.
        replace (eb - ez) with 0 in HD by lia. rewrite Z.pow_0_r in *. lia.
      - rewrite (Hgt ltac:(lia)) in Hm2. rewrite Heq in Hm2.
        assert (Zpos D / 2 ^ (eb - ez) < Zpos mb); [|lia].
        apply Z.div_lt_upper_bound; lia. }
    assert (Hkeep : dropped m2 e1 <= 0).
    { unfold dropped. assert (Zdigits2 m2 <= Zdigits2 (Zpos mb)) by (apply Zdigits2_le; lia).
      fexp_lia. }
    unfold finish_m, finish_e.
    destruct (Z.ltb_spec 0 (dropped m2 e1)); [lia|].
    destruct m2 as [|p|p]; [exact I| |lia].
    destruct (Z.leb_spec e1 (emax - prec)); [|lia]. right. lia.
  - (* a smaller exponent *)
    assert (Hd1 : Zdigits2 m1 <= prec) by (subst e1; fexp_lia).
    assert (Hm1b : m1 < 2 ^ prec) by (apply Zdigits2_lt_pow; unfold prec in *; lia).
    assert (Hd2 : Zdigits2 m2 <= prec + 1).
    { apply Zdigits2_lt_pow; [lia|unfold prec; lia|].
      replace (prec + 1) with (Z.succ prec) by lia. rewrite Z.pow_succ_r by (unfold prec; lia).
      lia. }
    assert (Hemin : emin <= e1) by (subst e1; fexp_lia).
    assert (Hdrop : dropped m2 e1 <= 1) by (unfold dropped; fexp_lia).
    unfold finish_m, finish_e in *.
    destruct (Z.ltb_spec 0 (dropped m2 e1)) as [Hn|Hn].
    + assert (Hone : dropped m2 e1 = 1) by lia.
      assert (He3 : fexp (Zdigits2 m2 + e1) = e1 + 1) by (unfold dropped in Hone; lia).
      rewrite Hone, He3 in *. rewrite Z.pow_1_r in *.
      destruct (m2 / 2) as [|p|p] eqn:Ediv; [exact I| |lia].
      destruct (Z.leb_spec (e1 + 1) (emax - prec)); [|lia].
      destruct (Z.eq_dec (e1 + 1) eb) as [E|E]; [right|left; lia].
      split; [assumption|].
      assert (2 ^ (prec - 1) <= Zpos mb) by (apply (valid_normal mb eb); [assumption|lia]).
      assert (m2 / 2 <= 2 ^ (prec - 1)); [|lia].
      apply Z.div_le_upper_bound; [lia|].
      replace (2 * 2 ^ (prec - 1)) with (2 ^ prec) by reflexivity. lia.
    + destruct m2 as [|p|p]; [exact I| |lia].
      destruct (Z.leb_spec e1 (emax - prec)); [|lia]. left. lia.
Qed.

Lemma positive_nonneg x : positive_double x -> nonneg x.
Proof. destruct x as [| | |[] m e]; simpl; try destruct s; auto; contradiction. Qed.

Lemma SFsub_finite mb eb mp ep :
  SFsub prec emax (S754_finite false mb eb) (S754_finite false mp ep) =
  binary_normalize prec emax (aligned_diff mb eb mp ep) (Z.min eb ep) false.
Proof. reflexivity. Qed.

Lemma SFsub_valid b p :
  valid_double b -> positive_double b -> valid_double (SFsub prec emax b p).
Proof.
  destruct b as [| [] | |[] mb eb]; simpl; try contradiction; intros Hv _.
  - destruct p as [| [] | |s mp ep]; reflexivity.
  - destruct p as [| | |s mp ep]; try reflexivity; try assumption.
    unfold SFsub.
    match goal with |- valid_double (binary_normalize _ _ ?z _ _) => destruct z end;
      try reflexivity; apply binary_round_valid.
Qed.

Lemma SFsub_le b p :
  valid_double b -> positive_double b -> nonneg p ->
  (SFsub prec emax b p = S754_nan /\ b = S754_infinity false) \/
  SFleb (SFsub prec emax b p) b = true.
Proof.
  intros Hv Hb Hp.
  destruct b as [| [] | |[] mb eb]; try (exfalso; exact Hb);
    destruct p as [[]|[]| |[] mp ep]; try (exfalso; exact Hp); try discriminate Hp;
    try (left; split; reflexivity); try (right; reflexivity).
  - right. apply SFleb_finite. lia.
  - right. rewrite SFsub_finite.
    pose proof (aligned_diff_eq mb eb mp ep) as Hz.
    assert (Hk : 0 < 2 ^ (ep - Z.min eb ep)) by (apply Z.pow_pos_nonneg; lia).
    destruct (aligned_diff mb eb mp ep) as [|D|D]; cbn [binary_normalize].
    + reflexivity.
    + pose proof (round_le_self false D (Z.min eb ep) mb eb Hv ltac:(lia) ltac:(nia)) as H.
      destruct (binary_round prec emax false D (Z.min eb ep)) as [s| | |s m e] eqn:E;
        try contradiction.
      * destruct s; reflexivity.
      * pose proof (proj1 (binary_round_signed false D (Z.min eb ep))) as Hs.
        rewrite E in Hs. simpl in Hs. subst s. apply SFleb_finite. assumption.
    + pose proof (proj1 (binary_round_signed true D (Z.min eb ep))) as Hs.
      destruct (binary_round prec emax true D (Z.min eb ep)) as [s|s| |s m e];
        simpl in Hs; try contradiction; subst s; reflexivity.
Qed.

Lemma SFsub_nonneg b p :
  valid_double b -> positive_double b -> nonneg p -> well_formed p ->
  SFltb b p = false ->
  (SFsub prec emax b p = S754_nan /\ b = S754_infinity false) \/
  nonneg (SFsub prec emax b p).
Proof.
  intros Hv Hb Hp Hw Hlt.
  destruct b as [| [] | |[] mb eb]; try (exfalso; exact Hb);
    destruct p as [[]|[]| |[] mp ep]; try (exfalso; exact Hp); try discriminate Hp;
    try discriminate Hlt;
    try (left; split; reflexivity); try (right; reflexivity).
  right. rewrite SFsub_finite.
  pose proof (aligned_diff_eq mb eb mp ep) as Hz.
  assert (Hge : 0 <= aligned_diff mb eb mp ep).
  { rewrite Hz. destruct Hw as [Hd Hmin].
    assert (Hle : SFleb (S754_finite false mp ep) (S754_finite false mb eb) = true).
    { unfold SFleb, SFltb in *.
      destruct (SFcompare (S754_finite false mb eb) (S754_finite false mp ep)) as [c|] eqn:E;
        [|discriminate E].
      rewrite (SFcompare_antisym _ _ _ E). destruct c; try reflexivity. discriminate. }
    apply SFleb_finite in Hle.
    destruct Hle as [Hlt'|[-> Hm]].
    - rewrite Z.min_r by lia. replace (ep - ep) with 0 by lia. rewrite Z.pow_0_r.
      assert (2 ^ (prec - 1) <= Zpos mb) by (apply (valid_normal mb eb); [assumption|lia]).
      assert (Zpos mp < 2 ^ prec) by (apply Zdigits2_lt_pow; unfold prec in *; lia).
      assert (2 ^ 1 <= 2 ^ (eb - ep)) by (apply Z.pow_le_mono_r; lia).
      replace (2 ^ prec) with (2 * 2 ^ (prec - 1)) in * by reflexivity.
      rewrite Z.pow_1_r in *. nia.
    - rewrite Z.min_id. replace (eb - eb) with 0 by lia. rewrite Z.pow_0_r. lia. }
  destruct (aligned_diff mb eb mp ep) as [|D|D]; try lia; cbn [binary_normalize].
  - reflexivity.
  - apply binary_round_signed.
Qed.

(** Swapping the operands of a subtraction negates the result. *)
Lemma SFsub_swap x y :
  SFsub prec emax y x = SFopp (SFsub prec emax x y) \/
  (is_zero (SFsub prec emax x y) /\ is_zero (SFsub prec emax y x)).
Proof.
  destruct x as [[]|[]| |sx mx ex], y as [[]|[]| |sy my ey]; simpl; auto;
    try (left; destruct sx; reflexivity); try (left; destruct sy; reflexivity).
  rewrite (Z.min_comm ey ex).
  set (a := cond_Zopp sx (Zpos (fst (shl_align mx ex (Z.min ex ey))))).
  set (b := cond_Zopp sy (Zpos (fst (shl_align my ey (Z.min ex ey))))).
  replace (b - a) with (- (a - b)) by lia.
  destruct (a - b) as [|D|D]; simpl; auto; left.
  - apply (binary_round_opp false).
  - rewrite <- (binary_round_opp true). reflexivity.
Qed.

End Doubles.

(** ** The operations keep doubles well formed *)

Section DoubleOps.

Import Binary64.
Local Open Scope Z_scope.

Lemma well_formed_opp x : well_formed x -> well_formed (SFopp x).
Proof. destruct x; simpl; auto. Qed.

Lemma binary_normalize_well_formed z e s :
  well_formed (binary_normalize prec emax z e s).
Proof.
  destruct z as [|D|D]; simpl; auto; apply binary_round_signed.
Qed.

Lemma add_well_formed x y :
  well_formed x -> well_formed y -> well_formed (add x y).
Proof.
  intros Hx Hy. unfold add.
  destruct x as [[]|[]| |sx mx ex], y as [[]|[]| |sy my ey]; try exact I;
    try exact Hx; try exact Hy.
  apply binary_normalize_well_formed.
Qed.

Lemma sub_well_formed x y :
  well_formed x -> well_formed y -> well_formed (sub x y).
Proof.
  intros Hx Hy. unfold sub.
  destruct x as [[]|[]| |sx mx ex], y as [[]|[]| |sy my ey]; try exact I;
    try exact Hx; try exact Hy.
  apply binary_normalize_well_formed.
Qed.

Lemma mul_well_formed x y : well_formed (mul x y).
Proof.
  unfold mul.
  destruct x as [[]|[]| |sx mx ex], y as [[]|[]| |sy my ey]; try exact I.
  apply binary_round_aux_wf. lia.
Qed.

Lemma SFdiv_core_binary_nonneg mx ex my ey :
  0 <= fst (fst (SFdiv_core_binary prec emax (Zpos mx) ex (Zpos my) ey)).
Proof.
  unfold SFdiv_core_binary.
  match goal with |- context [Z.div_eucl ?a ?b] =>
    assert (Ha : 0 <= a); [|pose proof (Z_div_mod a b ltac:(lia)) as Hdiv;
                             destruct (Z.div_eucl a b) as [q r]] end.
  - match goal with |- 0 <= match ?s with _ => _ end => destruct s end; try lia.
    apply Z.shiftl_nonneg. lia.
  - simpl. nia.
Qed.

Lemma div_well_formed x y : well_formed (div x y).
Proof.
  unfold div.
  destruct x as [[]|[]| |sx mx ex], y as [[]|[]| |sy my ey]; try exact I.
  unfold SFdiv.
  pose proof (SFdiv_core_binary_nonneg mx ex my ey) as Hq.
  destruct (SFdiv_core_binary prec emax (Zpos mx) ex (Zpos my) ey) as [[mz ez] lz].
  apply binary_round_aux_wf. exact Hq.
Qed.

Lemma Math_max_well_formed a b :
  well_formed a -> well_formed b -> well_formed (Math_max a b).
Proof.
  intros Ha Hb. unfold Math_max.
  destruct (SFcompare a b) as [[]|]; try exact I; try assumption.
  destruct a as [[]| | |]; assumption.
Qed.

Lemma Math_min_well_formed a b :
  well_formed a -> well_formed b -> well_formed (Math_min a b).
Proof.
  intros Ha Hb. unfold Math_min.
  destruct (SFcompare a b) as [[]|]; try exact I; try assumption.
  destruct a as [[]| | |]; assumption.
Qed.

(** ** Comparing with zero and clamping at zero *)

Lemma of_Z_0 : of_Z 0 = S754_zero false.
Proof. reflexivity. Qed.

(** [Math.max(x, 0)] is NaN, +0 or [x] itself when [x] is positive. *)
Lemma Math_max_0 x :
  (x = S754_nan /\ Math_max x (of_Z 0) = S754_nan) \/
  (signed true x \/ is_zero x) /\ Math_max x (of_Z 0) = S754_zero false \/
  (positive_double x /\ Math_max x (of_Z 0) = x).
Proof.
  destruct x as [[]|[]| |[] m e]; simpl; auto 6.
Qed.

Lemma Math_max_0_nonneg x : nonneg x -> Math_max x (of_Z 0) = x.
Proof. destruct x as [[]|[]| |[] m e]; simpl; intros H; try discriminate; try contradiction; reflexivity. Qed.

Lemma Math_max_0_cases x :
  Math_max x (of_Z 0) = S754_nan \/ nonneg (Math_max x (of_Z 0)).
Proof. destruct x as [[]|[]| |[] m e]; simpl; auto. Qed.

Lemma leb_0_nonneg x : nonneg x -> leb (of_Z 0) x = true.
Proof. destruct x as [[]|[]| |[] m e]; simpl; intros H; try discriminate; try contradiction; reflexivity. Qed.

Lemma leb_nonneg_positive x b : is_zero x -> positive_double b -> leb x b = true.
Proof.
  destruct x as [s| | |]; try contradiction. intros _.
  destruct b as [| [] | |[] m e]; try contradiction; reflexivity.
Qed.

Lemma gtb_irrefl x : gtb x x = false.
Proof.
  unfold gtb, SFltb. destruct (SFcompare x x) as [c|] eqn:E; [|reflexivity].
  rewrite SFcompare_refl in E; [injection E as <-; reflexivity|].
  intros ->. discriminate.
Qed.

(** A balance that is not settled is NaN or above epsilon. *)
Lemma leb_epsilon_false x :
  leb x epsilon = false -> x = S754_nan \/ gtb x epsilon = true.
Proof.
  unfold leb, gtb, SFleb, SFltb. intros H.
  destruct (SFcompare x epsilon) as [c|] eqn:E.
  - right. rewrite (SFcompare_antisym _ _ _ E). destruct c; try discriminate. reflexivity.
  - left. apply SFcompare_None in E as [E|E]; [assumption|discriminate].
Qed.

Lemma gtb_epsilon_positive x : gtb x epsilon = true -> positive_double x.
Proof.
  destruct x as [[]|[]| |[] m e]; simpl; try discriminate; auto.
Qed.

Lemma leb_0_false x :
  leb x (of_Z 0) = false -> x = S754_nan \/ positive_double x.
Proof. destruct x as [[]|[]| |[] m e]; simpl; try discriminate; auto. Qed.

End DoubleOps.

(** ** The loop on doubles *)

Lemma double_withEntering_cons balance r rows :
  Binary64.withEntering balance (r :: rows) =
  (r, balance) :: Binary64.withEntering (Binary64.balanceAfter r) rows.
Proof. reflexivity. Qed.

Section DoubleFacts.

Import Binary64.
Local Open Scope Z_scope.

Variable termMonths : spec_float.
Variable monthlyRate : spec_float.
Variable overrides : gmap Z spec_float.

Local Abbreviation guard := (loop_condition termMonths).
Local Abbreviation row_of := (computeRow termMonths monthlyRate overrides).
Local Abbreviation loop := (while_loop termMonths monthlyRate overrides).
Local Abbreviation run := (loop_run termMonths monthlyRate overrides).

Lemma double_loop_condition_lt balance index :
  guard balance index = true -> index < 1200.
Proof.
  unfold loop_condition. intros [_ H%bool_decide_eq_true]%andb_true_iff. done.
Qed.

(** One unfolding of the loop. *)
Lemma double_while_loop_step schedule balance index due :
  loop schedule balance index due =
  if guard balance index then
    let row := row_of balance index due in
    if leb (balanceAfter row) epsilon then schedule ++ [row]
    else loop (schedule ++ [row]) (balanceAfter row) (index + 1) (addMonths due 1)
  else schedule.
Proof.
  rewrite while_loop_equation_1. unfold while_loop_clause_1.
  enough (Hcase : forall (b : bool) (Hb : guard balance index = b),
    while_loop_unfold_clause_1 termMonths monthlyRate overrides schedule
      balance index (exist _ b Hb) due =
    if b then
      let row := row_of balance index due in
      if leb (balanceAfter row) epsilon then schedule ++ [row]
      else loop (schedule ++ [row]) (balanceAfter row) (index + 1) (addMonths due 1)
    else schedule) by apply Hcase.
  intros [] Hb; reflexivity.
Qed.

(** Every run of the loop returns the rows it started with, followed by
    rows that the relation accepts: the loop terminates on every input. *)
Lemma double_while_loop_spec schedule balance index due :
  exists rows,
    loop schedule balance index due = schedule ++ rows /\
    run balance index due rows.
Proof.
  remember (Z.to_nat (1200 - index)) as fuel eqn:Hfuel.
  revert schedule balance index due Hfuel.
  induction fuel as [fuel IH] using lt_wf_ind.
  intros schedule balance index due ->.
  rewrite double_while_loop_step.
  destruct (guard balance index) eqn:Hguard.
  - pose proof (double_loop_condition_lt _ _ Hguard) as Hlt.
    cbn zeta.
    destruct (leb (balanceAfter (row_of balance index due)) epsilon) eqn:Hleb.
    + exists [row_of balance index due]. split; [done |].
      by apply run_break.
    + destruct (IH (Z.to_nat (1200 - (index + 1))) ltac:(lia)
                  (schedule ++ [row_of balance index due])
                  (balanceAfter (row_of balance index due)) (index + 1)
                  (addMonths due 1) eq_refl) as (rows & Heq & Hrun).
      exists (row_of balance index due :: rows). split.
      * rewrite Heq, <- app_assoc. done.
      * by apply run_next.
  - exists []. split; [by rewrite app_nil_r | by apply run_exit].
Qed.

Lemma double_while_loop_run balance index due :
  run balance index due (loop [] balance index due).
Proof.
  destruct (double_while_loop_spec [] balance index due) as (rows & -> & Hrun). done.
Qed.

(** ** One row in double precision *)

Lemma double_row_principalPaid_eq balance index due :
  principalPaid (row_of balance index due) =
  let r := row_of balance index due in
  let principalPaid := Math_max (sub (actualPayment r) (interestPaid r)) (of_Z 0) in
  if gtb principalPaid balance then balance else principalPaid.
Proof. reflexivity. Qed.

Lemma double_row_balanceAfter_eq balance index due :
  balanceAfter (row_of balance index due) =
  Math_max (sub balance (principalPaid (row_of balance index due))) (of_Z 0).
Proof. reflexivity. Qed.

Lemma sub_nan_l x : sub S754_nan x = S754_nan.
Proof. reflexivity. Qed.

Lemma sub_nan_r x : sub x S754_nan = S754_nan.
Proof. destruct x; reflexivity. Qed.

Lemma double_row_monthIndex balance index due :
  monthIndex (row_of balance index due) = index.
Proof. reflexivity. Qed.

(** [principalPaid] is NaN or not negative. *)
Lemma double_row_principalPaid_cases balance index due :
  entering balance ->
  principalPaid (row_of balance index due) = S754_nan \/
  nonneg (principalPaid (row_of balance index due)).
Proof.
  intros Hb. rewrite double_row_principalPaid_eq. cbv zeta.
  destruct (gtb _ balance).
  - destruct Hb as [-> | [_ Hb]]; [by left | right]. by apply positive_nonneg.
  - apply Math_max_0_cases.
Qed.

(** The balance left by a row lies between 0 and the balance that entered
    the month, unless it is NaN; it is NaN only if the entering balance is
    NaN or Infinity or the principal paid is NaN. *)
Lemma double_row_balanceAfter balance index due :
  entering balance ->
  (balanceAfter (row_of balance index due) = S754_nan /\
   (balance = S754_nan \/ balance = S754_infinity false \/
    principalPaid (row_of balance index due) = S754_nan)) \/
  (leb (of_Z 0) (balanceAfter (row_of balance index due)) = true /\
   leb (balanceAfter (row_of balance index due)) balance = true).
Proof.
  intros Hb. rewrite double_row_balanceAfter_eq.
  pose proof (double_row_principalPaid_cases balance index due Hb) as Hpp.
  set (pp := principalPaid (row_of balance index due)) in *. clearbody pp.
  destruct Hb as [-> | [Hv Hb]]; [left; auto |].
  destruct Hpp as [-> | Hpp]; [rewrite sub_nan_r; left; auto |].
  destruct (SFsub_le balance pp Hv Hb Hpp) as [[Hd Hinf] | Hd].
  - left. unfold sub. rewrite Hd. auto.
  - fold (sub balance pp) in Hd.
    destruct (Math_max_0 (sub balance pp)) as [[Hnan _] | [[_ ->] | [Hpos ->]]].
    + rewrite Hnan in Hd. discriminate Hd.
    + right. split; [done |]. by apply leb_nonneg_positive.
    + right. split; [| done]. by apply leb_0_nonneg, positive_nonneg.
Qed.

Lemma double_row_balanceAfter_valid balance index due :
  entering balance -> valid_double (balanceAfter (row_of balance index due)).
Proof.
  intros Hb. rewrite double_row_balanceAfter_eq.
  set (pp := principalPaid (row_of balance index due)). clearbody pp.
  destruct (Math_max_0 (sub balance pp)) as [[_ ->] | [[_ ->] | [_ ->]]]; try done.
  destruct Hb as [-> | [Hv Hb]]; [done |]. by apply SFsub_valid.
Qed.

Lemma double_row_balanceAfter_cases balance index due :
  balanceAfter (row_of balance index due) = S754_nan \/
  nonneg (balanceAfter (row_of balance index due)).
Proof. rewrite double_row_balanceAfter_eq. apply Math_max_0_cases. Qed.

(** The balance that a row passes to the next iteration. *)
Lemma double_row_entering_next balance index due :
  entering balance ->
  leb (balanceAfter (row_of balance index due)) epsilon = false ->
  entering (balanceAfter (row_of balance index due)).
Proof.
  intros Hb Hleb.
  destruct (leb_epsilon_false _ Hleb) as [Hnan | Hgt]; [by left | right].
  split; [by apply double_row_balanceAfter_valid | by apply gtb_epsilon_positive].
Qed.

(** *** Payments are well formed *)

Hypothesis overrides_valid : map_Forall (fun _ v => valid_double v) overrides.

Lemma double_row_actualPayment_well_formed balance index due :
  well_formed (actualPayment (row_of balance index due)).
Proof.
  change (actualPayment (row_of balance index due))
    with (let planned := plannedPayment (row_of balance index due) in
          match overrides !! index with
          | Some v => if Number_isFinite v then v else planned
          | None => planned
          end).
  cbv zeta.
  assert (Hplanned : well_formed (plannedPayment (row_of balance index due))).
  { apply add_well_formed; [apply div_well_formed | apply mul_well_formed]. }
  destruct (overrides !! index) as [v|] eqn:Hv; [| done].
  destruct (Number_isFinite v); [| done].
  apply valid_wf. by apply (overrides_valid index v).
Qed.

Lemma double_row_principalPaid_well_formed balance index due :
  well_formed balance ->
  well_formed (principalPaid (row_of balance index due)).
Proof.
  intros Hb. rewrite double_row_principalPaid_eq. cbv zeta.
  destruct (gtb _ balance); [done |].
  apply Math_max_well_formed; [| done].
  pose proof (double_row_actualPayment_well_formed balance index due) as Ha.
  apply sub_well_formed; [exact Ha |].
  change (interestPaid (row_of balance index due))
    with (Math_min (actualPayment (row_of balance index due))
                   (mul balance monthlyRate)).
  apply Math_min_well_formed; [exact Ha | apply mul_well_formed].
Qed.

(** [principalPaid] is never above the entering balance, and what is left
    is the difference of the two, which the clamp at zero never changes. *)
Lemma double_row_principalPaid_balance balance index due :
  entering balance ->
  gtb (principalPaid (row_of balance index due)) balance = false /\
  balanceAfter (row_of balance index due) =
    sub balance (principalPaid (row_of balance index due)).
Proof.
  intros Hb.
  assert (Hgt : gtb (principalPaid (row_of balance index due)) balance = false).
  { rewrite double_row_principalPaid_eq. cbv zeta.
    set (pp0 := Math_max _ (of_Z 0)).
    destruct (gtb pp0 balance) eqn:E; [apply gtb_irrefl | done]. }
  split; [done |].
  rewrite double_row_balanceAfter_eq.
  pose proof (double_row_principalPaid_cases balance index due Hb) as Hpp.
  assert (Hwf : well_formed balance -> well_formed (principalPaid (row_of balance index due)))
    by apply double_row_principalPaid_well_formed.
  set (pp := principalPaid (row_of balance index due)) in *. clearbody pp.
  destruct Hb as [-> | [Hv Hb]]; [done |].
  destruct Hpp as [-> | Hpp]; [by rewrite sub_nan_r |].
  destruct (SFsub_nonneg balance pp Hv Hb Hpp (Hwf (valid_wf _ Hv)) Hgt) as [[Hd _] | Hd].
  - unfold sub. by rewrite Hd.
  - by apply Math_max_0_nonneg.
Qed.

End DoubleFacts.

(** ** The rows of a run on doubles *)

Section DoubleRuns.

Import Binary64.
Local Open Scope Z_scope.

Variable termMonths : spec_float.
Variable monthlyRate : spec_float.
Variable overrides : gmap Z spec_float.

Local Abbreviation guard := (loop_condition termMonths).
Local Abbreviation row_of := (computeRow termMonths monthlyRate overrides).
Local Abbreviation run := (loop_run termMonths monthlyRate overrides).

Lemma double_run_rows balance index due rows :
  run balance index due rows ->
  Forall (fun r => exists bal i d, r = row_of bal i d) rows.
Proof.
  induction 1; repeat constructor; eauto.
Qed.

(** A property of a row and its entering balance that holds whenever the
    balance is NaN or a positive double holds all along a run. *)
Lemma double_run_withEntering (P : ScheduleRow * spec_float -> Prop) :
  (forall b i d, entering b -> P (row_of b i d, b)) ->
  forall balance index due rows,
    run balance index due rows -> entering balance ->
    Forall P (withEntering balance rows).
Proof.
  intros HP balance index due rows.
  induction 1 as [b i d Hg | b i d Hg Hle | b i d rows Hg Hlt Hrun IH]; intros Hb.
  - constructor.
  - repeat constructor. by apply HP.
  - rewrite double_withEntering_cons. constructor; [by apply HP |].
    apply IH. by apply double_row_entering_next.
Qed.

Lemma double_run_lookup balance index due rows :
  run balance index due rows ->
  forall (k : nat) (r : ScheduleRow), rows !! k = Some r ->
  monthIndex r = index + Z.of_nat k.
Proof.
  induction 1 as [b i d Hg | b i d Hg Hle | b i d rows Hg Hlt Hrun IH];
    intros k r Hk.
  - done.
  - destruct k as [|k]; [| done]. injection Hk as <-. simpl. lia.
  - destruct k as [|k].
    + injection Hk as <-. simpl. lia.
    + rewrite (IH k r Hk). lia.
Qed.

Lemma double_run_length balance index due rows :
  run balance index due rows ->
  (length rows <= Z.to_nat (1200 - index))%nat.
Proof.
  induction 1 as [b i d Hg | b i d Hg Hle | b i d rows Hg Hlt Hrun IH]; simpl.
  - lia.
  - apply double_loop_condition_lt in Hg. lia.
  - apply double_loop_condition_lt in Hg. lia.
Qed.

(** Only the last row of a run can leave a settled balance. *)
Lemma double_run_removelast balance index due rows :
  run balance index due rows ->
  Forall (fun r => leb (balanceAfter r) epsilon = false) (removelast rows).
Proof.
  induction 1 as [b i d Hg | b i d Hg Hle | b i d rows Hg Hlt Hrun IH].
  - constructor.
  - constructor.
  - destruct rows as [|r rows]; [constructor |].
    change (removelast (row_of b i d :: r :: rows))
      with (row_of b i d :: removelast (r :: rows)).
    by constructor.
Qed.

(** A run ends on a settled balance, at the cap on the month index, or on
    a balance that is NaN. *)
Lemma double_run_last balance index due rows :
  run balance index due rows -> index <= 1200 ->
  (rows = [] /\ guard balance index = false) \/
  exists r, last rows = Some r /\
    (leb (balanceAfter r) epsilon = true \/
     length rows = Z.to_nat (1200 - index) \/
     balanceAfter r = S754_nan).
Proof.
  induction 1 as [b i d Hg | b i d Hg Hle | b i d rows Hg Hlt Hrun IH];
    intros Hidx.
  - by left.
  - right. eexists. split; [reflexivity | by left].
  - right. apply double_loop_condition_lt in Hg as Hi.
    destruct (IH ltac:(lia)) as [[-> Hend] | (r & Hlast & Hr)].
    + eexists. split; [reflexivity |].
      unfold loop_condition in Hend. apply andb_false_iff in Hend as [Hend | Hend].
      * apply orb_false_iff in Hend as [_ Hgt].
        destruct (leb_epsilon_false _ Hlt) as [Hnan | Hgt']; [by auto | congruence].
      * apply bool_decide_eq_false in Hend. right. left. simpl. lia.
    + exists r. split.
      * rewrite last_cons, Hlast. done.
      * destruct Hr as [Hr | [Hr | Hr]]; [by left | right; left | by auto].
        simpl. lia.
Qed.

End DoubleRuns.

(** ** [calculateSchedule] on doubles and the relation *)

Lemma double_calculateSchedule_cases principal annualRate termMonths startMonth overrides :
  Binary64.calculateSchedule principal annualRate termMonths startMonth overrides = [] \/
  (Binary64.leb principal (Binary64.of_Z 0) = false /\
   Binary64.leb termMonths (Binary64.of_Z 0) = false /\
   Binary64.loop_run termMonths
     (Binary64.div (Binary64.div annualRate (Binary64.of_Z 100)) (Binary64.of_Z 12))
     overrides principal 1 (parseMonthInput startMonth)
     (Binary64.calculateSchedule principal annualRate termMonths startMonth overrides)).
Proof.
  unfold Binary64.calculateSchedule.
  destruct (Binary64.leb principal (Binary64.of_Z 0)) eqn:Hp; [by left |].
  destruct (Binary64.leb termMonths (Binary64.of_Z 0)) eqn:Ht; [by left |].
  right. repeat split. apply double_while_loop_run.
Qed.

Lemma double_calculateSchedule_entering principal :
  Binary64.valid_double principal ->
  Binary64.leb principal (Binary64.of_Z 0) = false ->
  Binary64.entering principal.
Proof.
  intros Hv Hp. destruct (leb_0_false _ Hp) as [Hnan | Hpos]; [by left | by right].
Qed.

Section DoubleRowMore.

Import Binary64.
Local Open Scope Z_scope.

(** The positive parts of [a - p] and of [p - a]: both NaN, or one of them
    is +0. *)
Lemma max_sub_exclusive a p :
  (Math_max (sub a p) (of_Z 0) = S754_nan /\ Math_max (sub p a) (of_Z 0) = S754_nan) \/
  Math_max (sub a p) (of_Z 0) = of_Z 0 \/
  Math_max (sub p a) (of_Z 0) = of_Z 0.
Proof.
  unfold sub. destruct (SFsub_swap a p) as [-> | [H1 H2]].
  - destruct (SFsub prec emax a p) as [[]|[]| |[] m e]; simpl; auto.
  - destruct (SFsub prec emax a p) as [[]| | |]; try contradiction; simpl; auto.
Qed.

Lemma double_row_extra_shortfall termMonths monthlyRate overrides balance index due :
  let r := computeRow termMonths monthlyRate overrides balance index due in
  (extraPayment r = S754_nan /\ shortfall r = S754_nan) \/
  extraPayment r = of_Z 0 \/ shortfall r = of_Z 0.
Proof.
  intros r.
  change (extraPayment r) with (Math_max (sub (actualPayment r) (plannedPayment r)) (of_Z 0)).
  change (shortfall r) with (Math_max (sub (plannedPayment r) (actualPayment r)) (of_Z 0)).
  apply max_sub_exclusive.
Qed.

Lemma gtb_0_nonneg x : x = S754_nan \/ nonneg x -> gtb (of_Z 0) x = false.
Proof.
  intros [-> | H]; [done |].
  destruct x as [[]|[]| |[] m e]; simpl in H; try discriminate; try contradiction; reflexivity.
Qed.

Lemma gtb_0_leb x : gtb x (of_Z 0) = true -> leb x (of_Z 0) = false.
Proof. destruct x as [[]|[]| |[] m e]; simpl; try discriminate; reflexivity. Qed.

Lemma leb_1_leb_0 x : leb (of_Z 1) x = true -> leb x (of_Z 0) = false.
Proof.
  change (of_Z 1) with (S754_finite false 4503599627370496 (-52)).
  destruct x as [[]|[]| |[] m e]; simpl; try discriminate; reflexivity.
Qed.

End DoubleRowMore.

(** ** Signs of sums, products and quotients *)

Section DoubleSigns.

Import Binary64.
Local Open Scope Z_scope.

Lemma sub_diag x : Number_isFinite x = true -> sub x x = S754_zero false.
Proof.
  destruct x as [[]| | |s m e]; try discriminate; try reflexivity.
  intros _. unfold sub, SFsub. by rewrite Z.sub_diag.
Qed.

Lemma sub_0_r x : sub x (of_Z 0) = x.
Proof. destruct x as [[]|[]| |s m e]; reflexivity. Qed.















End DoubleSigns.

(** ** A negative override in double precision *)

Section DoubleOverride.

Import Binary64.
Local Open Scope Z_scope.

Variable termMonths : spec_float.
Variable monthlyRate : spec_float.
Variable overrides : gmap Z spec_float.

Local Abbreviation row_of := (computeRow termMonths monthlyRate overrides).
Local Abbreviation run := (loop_run termMonths monthlyRate overrides).

(** The loop only starts an iteration on a balance that is NaN or
    positive, whatever the representation of the principal. *)
Lemma double_run_withEntering_positive (P : ScheduleRow * spec_float -> Prop) :
  (forall b i d, b = S754_nan \/ positive_double b -> P (row_of b i d, b)) ->
  forall balance index due rows,
    run balance index due rows ->
    balance = S754_nan \/ positive_double balance ->
    Forall P (withEntering balance rows).
Proof.
  intros HP balance index due rows.
  induction 1 as [b i d Hg | b i d Hg Hle | b i d rows Hg Hlt Hrun IH]; intros Hb.
  - constructor.
  - repeat constructor. by apply HP.
  - rewrite double_withEntering_cons. constructor; [by apply HP |].
    apply IH. destruct (leb_epsilon_false _ Hlt) as [Hnan | Hgt]; [by left | right].
    by apply gtb_epsilon_positive.
Qed.



End DoubleOverride.

(** ** Minimum and maximum of doubles *)

Section DoubleMinMax.

Import Binary64.
Local Open Scope Z_scope.

Lemma SFcompare_not_nan_l x y c : SFcompare x y = Some c -> x <> S754_nan.
Proof. intros H ->. discriminate H. Qed.

Lemma SFcompare_not_nan_r x y c : SFcompare x y = Some c -> y <> S754_nan.
Proof. intros H ->. destruct x; discriminate H. Qed.

(** [Math.max(a, b)] is NaN or at least [b]. *)
Lemma double_Math_max_ge_r a b :
  Math_max a b = S754_nan \/ leb b (Math_max a b) = true.
Proof.
  unfold Math_max, leb, SFleb.
  destruct (SFcompare a b) as [[]|] eqn:E; [| | | by left]; right.
  - assert (Hb : SFcompare b b = Some Eq)
      by (eapply SFcompare_refl, SFcompare_not_nan_r; exact E).
    destruct a as [[]| | |]; rewrite ?Hb; try done;
      by rewrite (SFcompare_antisym _ _ _ E).
  - rewrite SFcompare_refl; [done |]. eapply SFcompare_not_nan_r; exact E.
  - by rewrite (SFcompare_antisym _ _ _ E).
Qed.

(** [Math.min(v, p)] is [v] when [v <= p], and [p] when [p <= v], as
    numbers: the two can differ in the sign of a zero. *)
Lemma Math_min_l_eqb v p : leb v p = true -> SFeqb (Math_min v p) v = true.
Proof.
  unfold leb, SFleb, Math_min, SFeqb.
  destruct (SFcompare v p) as [[]|] eqn:E; try discriminate; intros _.
  - assert (Hv : SFcompare v v = Some Eq)
      by (eapply SFcompare_refl, SFcompare_not_nan_l; exact E).
    destruct v as [[]| | |]; rewrite ?Hv; try done.
    by rewrite (SFcompare_antisym _ _ _ E).
  - rewrite SFcompare_refl; [done |]. eapply SFcompare_not_nan_l; exact E.
Qed.

Lemma Math_min_r_eqb v p : leb p v = true -> SFeqb (Math_min v p) p = true.
Proof.
  unfold leb, SFleb, Math_min, SFeqb.
  destruct (SFcompare p v) as [c|] eqn:E; [| discriminate].
  pose proof (SFcompare_antisym _ _ _ E) as E'. rewrite E'.
  assert (Hp : SFcompare p p = Some Eq)
    by (eapply SFcompare_refl, SFcompare_not_nan_l; exact E).
  destruct c; try discriminate; intros _; simpl in *.
  - destruct v as [[]| | |]; rewrite ?Hp; try done; by rewrite E'.
  - by rewrite Hp.
Qed.

(** What is left of a payment [v] after the interest [min(v, p)]. *)
Lemma rest_after_interest_low v p :
  Number_isFinite v = true -> leb v p = true ->
  Math_max (sub v (Math_min v p)) (of_Z 0) = of_Z 0.
Proof.
  intros Hv. unfold leb, SFleb, Math_min.
  destruct (SFcompare v p) as [[]|] eqn:E; try discriminate; intros _.
  - destruct v as [[]| | |s m e]; try discriminate Hv.
    + reflexivity.
    + destruct p as [[]|[]| |[]]; try discriminate E; reflexivity.
    + by rewrite sub_diag.
  - by rewrite sub_diag.
Qed.

Lemma rest_after_interest_high v p :
  Number_isFinite v = true -> leb p v = true ->
  Math_max (sub v (Math_min v p)) (of_Z 0) = Math_max (sub v p) (of_Z 0).
Proof.
  intros Hv. unfold leb, SFleb, Math_min.
  destruct (SFcompare p v) as [c|] eqn:E; [| discriminate].
  rewrite (SFcompare_antisym _ _ _ E).
  destruct c; try discriminate; intros _; simpl; [| done].
  destruct v as [[]| | |s m e]; try discriminate Hv.
  - destruct p as [[]|[]| |[]]; try discriminate E; reflexivity.
  - reflexivity.
  - destruct p as [s'|[]| |s' m' e']; try (destruct s; discriminate E).
    assert (s' = s /\ e' = e /\ m' = m) as (-> & -> & ->); [| done].
    simpl in E. destruct s', s; try discriminate E;
      destruct (Z.compare_spec e' e); try discriminate E;
      rewrite Pos.compare_cont_spec in E; simpl in E;
      destruct (Pos.compare_spec m' m); try discriminate E; by subst.
Qed.

(** Clamping at zero does not change whether an amount exceeds a balance. *)
Lemma gtb_Math_max_0 d b :
  b = S754_nan \/ positive_double b ->
  gtb (Math_max d (of_Z 0)) b = gtb d b.
Proof.
  intros [-> | Hb].
  - by destruct d as [[]|[]| |[] m e].
  - destruct b as [| [] | |[] mb eb]; try (exfalso; exact Hb);
      by destruct d as [[]|[]| |[] m e].
Qed.

End DoubleMinMax.

(** ** What an override does to its month, in double precision *)

Section DoubleRegimes.

Import Binary64.
Local Open Scope Z_scope.

Variable termMonths : spec_float.
Variable monthlyRate : spec_float.
Variable overrides : gmap Z spec_float.

Local Abbreviation row_of := (computeRow termMonths monthlyRate overrides).
Local Abbreviation run := (loop_run termMonths monthlyRate overrides).

Lemma double_row_override_regimes balance index due v :
  balance = S754_nan \/ positive_double balance ->
  overrides !! index = Some v ->
  Number_isFinite v = true ->
  let row := row_of balance index due in
  actualPayment row = v /\
  (leb v (plannedInterest row) = true ->
     SFeqb (interestPaid row) v = true /\
     principalPaid row = of_Z 0 /\
     balanceAfter row = balance) /\
  (leb (plannedInterest row) v = true ->
     SFeqb (interestPaid row) (plannedInterest row) = true /\
     (gtb (sub v (plannedInterest row)) balance = false ->
        principalPaid row = Math_max (sub v (plannedInterest row)) (of_Z 0)) /\
     (gtb (sub v (plannedInterest row)) balance = true ->
        principalPaid row = balance /\ balanceAfter row = of_Z 0)).
Proof.
  intros Hb Hov Hfin row.
  assert (Hactual : actualPayment row = v).
  { unfold row, computeRow. cbn [actualPayment]. by rewrite Hov, Hfin. }
  split; [done |].
  assert (Hip : interestPaid row = Math_min v (plannedInterest row)).
  { change (interestPaid row) with (Math_min (actualPayment row) (plannedInterest row)).
    by rewrite Hactual. }
  assert (Hpp : principalPaid row =
                if gtb (Math_max (sub v (interestPaid row)) (of_Z 0)) balance
                then balance else Math_max (sub v (interestPaid row)) (of_Z 0)).
  { unfold row. rewrite double_row_principalPaid_eq. cbv zeta. fold row.
    by rewrite Hactual. }
  assert (Hba : balanceAfter row = Math_max (sub balance (principalPaid row)) (of_Z 0))
    by apply double_row_balanceAfter_eq.
  split.
  - intros Hlow.
    assert (Hzero : principalPaid row = of_Z 0).
    { rewrite Hpp, Hip, rest_after_interest_low by done.
      destruct Hb as [-> | Hb]; [done |].
      destruct balance as [| [] | |[] mb eb]; try (exfalso; exact Hb); reflexivity. }
    split; [rewrite Hip; by apply Math_min_l_eqb |]. split; [done |].
    rewrite Hba, Hzero, sub_0_r.
    destruct Hb as [-> | Hb]; [done |]. by apply Math_max_0_nonneg, positive_nonneg.
  - intros Hhigh.
    split; [rewrite Hip; by apply Math_min_r_eqb |].
    rewrite Hip, rest_after_interest_high, gtb_Math_max_0 in Hpp by done.
    split.
    + intros Hgt. by rewrite Hpp, Hgt.
    + intros Hgt. rewrite Hgt in Hpp. split; [done |].
      rewrite Hba, Hpp.
      destruct Hb as [-> | Hb]; [by destruct (sub v (plannedInterest row)) |].
      destruct balance as [| [] | |[] mb eb]; try (exfalso; exact Hb).
      * by destruct (sub v (plannedInterest row)) as [[]|[]| |[] m e].
      * by rewrite sub_diag.
Qed.

(** A row that leaves a settled balance is the last row. *)
Lemma double_run_settled_last balance index due rows (k : nat) r :
  run balance index due rows ->
  rows !! k = Some r -> leb (balanceAfter r) epsilon = true -> last rows = Some r.
Proof.
  intros Hrun. revert k.
  induction Hrun as [b i d Hg | b i d Hg Hle | b i d rows Hg Hlt Hrun IH];
    intros k Hk Hr.
  - done.
  - destruct k; [by injection Hk as <- | done].
  - destruct k as [|k].
    + injection Hk as <-. congruence.
    + rewrite last_cons, (IH k Hk Hr). done.
Qed.

(** Once the balance is NaN, every amount that depends on it is NaN. *)
Lemma double_row_NaN index due :
  let row := row_of S754_nan index due in
  plannedInterest row = S754_nan /\ interestPaid row = S754_nan /\
  principalPaid row = S754_nan /\ balanceAfter row = S754_nan.
Proof.
  intros row.
  assert (Hinterest : plannedInterest row = S754_nan) by reflexivity.
  assert (Hpaid : interestPaid row = S754_nan).
  { change (interestPaid row) with (Math_min (actualPayment row) (plannedInterest row)).
    rewrite Hinterest. unfold Math_min. by destruct (actualPayment row). }
  assert (Hprincipal : principalPaid row = S754_nan).
  { unfold row. rewrite double_row_principalPaid_eq. cbv zeta. fold row.
    rewrite Hpaid, sub_nan_r. reflexivity. }
  repeat split; done.
Qed.

End DoubleRegimes.

Lemma double_calculateSchedule_positive principal annualRate termMonths startMonth overrides :
  Forall (fun '(r, balance) =>
            (balance = S754_nan \/ Binary64.positive_double balance) /\
            exists i d,
              r = Binary64.computeRow termMonths
                    (Binary64.div (Binary64.div annualRate (Binary64.of_Z 100))
                       (Binary64.of_Z 12))
                    overrides balance i d)
    (Binary64.withEntering principal
       (Binary64.calculateSchedule principal annualRate termMonths startMonth overrides)).
Proof.
  destruct (double_calculateSchedule_cases principal annualRate termMonths
              startMonth overrides) as [-> | (Hp & Ht & Hrun)]; [constructor |].
  refine (double_run_withEntering_positive _ _ _ _ _ _ _ _ _ Hrun _).
  - intros b i d Hb. eauto.
  - by apply leb_0_false.
Qed.

(** ** The generator on small inputs, in double precision *)

(** 1000 at 12 % over two months: 500 of principal each month, and the
    loan is settled by the second row. *)
Example two_month_schedule :
  map (fun r => (Binary64.monthIndex r, Binary64.plannedPayment r, Binary64.balanceAfter r))
      (Binary64.calculateSchedule (Binary64.of_Z 1000) (Binary64.of_Z 12)
         (Binary64.of_Z 2) (2025%Z, 12%Z) ∅)
  = [(1%Z, Binary64.of_Z 510, Binary64.of_Z 500);
     (2%Z, Binary64.of_Z 505, Binary64.of_Z 0)].
Proof. vm_compute. reflexivity. Qed.

(** The due dates run from December 2025 over the turn of the year. *)
Example two_month_due_dates :
  map Binary64.dueDate
      (Binary64.calculateSchedule (Binary64.of_Z 1000) (Binary64.of_Z 12)
         (Binary64.of_Z 2) (2025%Z, 12%Z) ∅)
  = [{| year := 2025; month := 11 |}; {| year := 2026; month := 0 |}].
Proof. vm_compute. reflexivity. Qed.

(** The reference loan, 315000 at 3.54 % over 360 months, is paid off by
    row 360, which leaves exactly 0. *)
Example reference_loan_rows :
  let rows := Binary64.calculateSchedule (Binary64.of_Z 315000) (Binary64.decimal 354 100)
                (Binary64.of_Z 360) (2025%Z, 12%Z) ∅ in
  length rows = 360%nat /\
  Binary64.balanceAfter <$> last rows = Some (Binary64.of_Z 0).
Proof. vm_compute. split; reflexivity. Qed.

(** Paying nothing in month 1 of the reference loan leaves the balance at
    315000, books the whole planned payment as shortfall, and the
    schedule then needs the 360 months of the term all the same. *)
Example skipped_first_payment :
  let rows := Binary64.calculateSchedule (Binary64.of_Z 315000) (Binary64.decimal 354 100)
                (Binary64.of_Z 360) (2025%Z, 12%Z) {[ 1%Z := Binary64.of_Z 0 ]} in
  (fun r => (Binary64.interestPaid r, Binary64.principalPaid r, Binary64.extraPayment r,
             Binary64.shortfall r, Binary64.balanceAfter r)) <$> head rows
  = Some (Binary64.of_Z 0, Binary64.of_Z 0, Binary64.of_Z 0,
          Binary64.decimal 180425 100, Binary64.of_Z 315000) /\
  length rows = 360%nat.
Proof. vm_compute. split; reflexivity. Qed.

(** An override that is not a finite number is ignored. *)
Example non_finite_override_ignored :
  map Binary64.actualPayment
      (Binary64.calculateSchedule (Binary64.of_Z 1000) (Binary64.of_Z 12)
         (Binary64.of_Z 2) (2025%Z, 12%Z)
         {[ 1%Z := S754_nan; 2%Z := S754_infinity false ]})
  = [Binary64.of_Z 510; Binary64.of_Z 505].
Proof. vm_compute. reflexivity. Qed.

(** A term below one month together with a principal of at most epsilon
    passes the guard on the arguments, but the loop never runs. *)
Example fractional_term_empty :
  Binary64.calculateSchedule (Binary64.decimal 1 200) (Binary64.of_Z 12)
    (Binary64.decimal 1 2) (2025%Z, 12%Z) ∅ = [].
Proof. vm_compute. reflexivity. Qed.

(** A NaN principal passes the guard, and every amount of every row is
    then NaN; an infinite principal leaves NaN from the first row on. *)
Example NaN_principal :
  map Binary64.balanceAfter
      (Binary64.calculateSchedule S754_nan (Binary64.of_Z 12) (Binary64.of_Z 2)
         (2025%Z, 12%Z) ∅) = [S754_nan; S754_nan] /\
  map Binary64.balanceAfter
      (Binary64.calculateSchedule (S754_infinity false) (Binary64.of_Z 12)
         (Binary64.of_Z 2) (2025%Z, 12%Z) ∅) = [S754_nan; S754_nan].
Proof. vm_compute. split; reflexivity. Qed.

(** On the overflowing loan the planned interest of month 1 is Infinity,
    the principal paid is Infinity - Infinity, and from there on every
    amount is NaN; the loop runs for the 12 months of the term. *)
Lemma overflowing_loan_rows :
  length overflowing_loan = 12%nat /\
  Binary64.plannedInterest <$> head overflowing_loan = Some (S754_infinity false) /\
  map Binary64.principalPaid overflowing_loan = replicate 12 S754_nan /\
  map Binary64.balanceAfter overflowing_loan = replicate 12 S754_nan /\
  map Binary64.extraPayment overflowing_loan = replicate 12 S754_nan /\
  map Binary64.shortfall overflowing_loan = replicate 12 S754_nan.
Proof. vm_compute. repeat split. Qed.

(** * The properties of the schedule *)

(** C1, as stated, fails on doubles: on the overflowing loan (1e308 at
    2400 % over 12 months) every row leaves a balance of NaN, and NaN is
    neither at least 0 nor at most the balance before it. *)
Lemma balanceAfter_NaN_counterexample :
  map Binary64.balanceAfter overflowing_loan = replicate 12 S754_nan /\
  Binary64.leb (Binary64.of_Z 0) S754_nan = false /\
  Binary64.leb S754_nan S754_nan = false /\
  Binary64.leb S754_nan (Binary64.of_Z (10 ^ 308)) = false.
Proof. vm_compute. repeat split. Qed.

(** C1, amended.  For every input whose principal is a double, every row
    leaves a balance that lies between 0 and the balance that entered the
    month (the principal for row 1, the [balanceAfter] of the row before
    otherwise), unless it is NaN; and it is NaN only if the entering
    balance is NaN or Infinity or the row's [principalPaid] is NaN.  So
    the balances never increase and are never negative as long as they
    are numbers. *)
Theorem balanceAfter_non_increasing_unless_NaN
    principal annualRate termMonths startMonth overrides :
  Binary64.valid_double principal ->
  Forall (fun '(r, balance) =>
            (Binary64.balanceAfter r = S754_nan /\
             (balance = S754_nan \/ balance = S754_infinity false \/
              Binary64.principalPaid r = S754_nan)) \/
            (Binary64.leb (Binary64.of_Z 0) (Binary64.balanceAfter r) = true /\
             Binary64.leb (Binary64.balanceAfter r) balance = true))
    (Binary64.withEntering principal
       (Binary64.calculateSchedule principal annualRate termMonths startMonth overrides)).
Proof.
  intros Hv.
  destruct (double_calculateSchedule_cases principal annualRate termMonths
              startMonth overrides) as [-> | (Hp & Ht & Hrun)]; [constructor |].
  refine (double_run_withEntering _ _ _ _ _ _ _ _ _ Hrun _).
  - intros b i d Hb. by apply double_row_balanceAfter.
  - by apply double_calculateSchedule_entering.
Qed.

Lemma balanceAfter_non_increasing_unless_NaN_witness :
  Binary64.valid_double (Binary64.of_Z 1000) /\
  Forall (fun '(r, balance) =>
            (Binary64.balanceAfter r = S754_nan /\
             (balance = S754_nan \/ balance = S754_infinity false \/
              Binary64.principalPaid r = S754_nan)) \/
            (Binary64.leb (Binary64.of_Z 0) (Binary64.balanceAfter r) = true /\
             Binary64.leb (Binary64.balanceAfter r) balance = true))
    (Binary64.withEntering (Binary64.of_Z 1000)
       (Binary64.calculateSchedule (Binary64.of_Z 1000) (Binary64.of_Z 12)
          (Binary64.of_Z 2) (2025%Z, 12%Z) ∅)).
Proof.
  split; [reflexivity |].
  apply (balanceAfter_non_increasing_unless_NaN (Binary64.of_Z 1000)). reflexivity.
Defined.

Lemma zeroPayments_finite :
  map_Forall (fun _ v => Number_isFinite v = true) zeroPayments.
Proof.
  intros i v Hi. apply elem_of_list_to_map_2 in Hi.
  apply list_elem_of_fmap in Hi as (j & [= -> ->] & _). reflexivity.
Qed.

(** C2, as stated, fails on a valid input: when nothing is ever paid the
    balance stays at the principal, and the schedule stops at the cap of
    1199 rows with 315000 still owed. *)
Lemma reaches_payoff_counterexample :
  let principal := Qc_of_Z 315000 in
  let annualRate := Q2Qc (354 # 100) in
  let termMonths := Qc_of_Z 360 in
  let rows := calculateSchedule principal annualRate termMonths
                (2025%Z, 12%Z) zeroPayments in
  (0 < principal /\ 0 ≤ annualRate /\ 0 < termMonths /\
   map_Forall (fun _ v => Number_isFinite v = true) zeroPayments) /\
  length rows = 1199%nat /\
  exists r, last rows = Some r /\
    balanceAfter r = principal /\ ~ balanceAfter r ≤ epsilon.
Proof.
  intros principal annualRate termMonths rows.
  split; [repeat split; try (by vm_compute); apply zeroPayments_finite |].
  split; [vm_compute; reflexivity |].
  eexists. split; [vm_compute; reflexivity |].
  split; [apply Qc_is_canon; vm_compute; reflexivity |].
  vm_compute. intros H. by apply H.
Qed.

(** The same schedule in double precision: 1199 rows, and 315000 still
    owed after the last one. *)
Lemma reaches_payoff_counterexample_binary64 :
  let rows := Binary64.calculateSchedule (Binary64.of_Z 315000) (Binary64.decimal 354 100)
                (Binary64.of_Z 360) (2025%Z, 12%Z) zeroPayments64 in
  length rows = 1199%nat /\
  Binary64.balanceAfter <$> last rows = Some (Binary64.of_Z 315000) /\
  Binary64.leb (Binary64.of_Z 315000) Binary64.epsilon = false.
Proof. vm_compute. repeat split. Qed.

(** C2, amended.  On an input with a positive principal and a term of at
    least one month the schedule is non-empty and has at most 1199 rows;
    its last row leaves at most epsilon unless the schedule was cut at the
    cap of 1199 rows or the balance it leaves is NaN (as on the
    overflowing loan, see [overflowing_loan_rows]). *)
Theorem payoff_cap_or_NaN principal annualRate termMonths startMonth overrides :
  Binary64.gtb principal (Binary64.of_Z 0) = true ->
  Binary64.leb (Binary64.of_Z 1) termMonths = true ->
  let rows := Binary64.calculateSchedule principal annualRate termMonths startMonth overrides in
  rows <> [] /\
  (length rows <= 1199)%nat /\
  exists r, last rows = Some r /\
    (Binary64.leb (Binary64.balanceAfter r) Binary64.epsilon = true \/
     length rows = 1199%nat \/
     Binary64.balanceAfter r = S754_nan).
Proof.
  intros Hp Ht rows.
  destruct (double_calculateSchedule_cases principal annualRate termMonths
              startMonth overrides) as [Hnil | (_ & _ & Hrun)].
  { exfalso. unfold Binary64.calculateSchedule in Hnil.
    rewrite (gtb_0_leb _ Hp), (leb_1_leb_0 _ Ht) in Hnil. cbn [orb] in Hnil.
    pose proof (double_while_loop_run termMonths
      (Binary64.div (Binary64.div annualRate (Binary64.of_Z 100)) (Binary64.of_Z 12))
      overrides principal 1 (parseMonthInput startMonth)) as Hrun.
    rewrite Hnil in Hrun. inversion Hrun as [b i d Hg | |].
    unfold Binary64.loop_condition in Hg. rewrite Ht in Hg. done. }
  fold rows in Hrun.
  pose proof (double_run_length _ _ _ _ _ _ _ Hrun) as Hlen.
  destruct (double_run_last _ _ _ _ _ _ _ Hrun ltac:(lia)) as [[Hnil Hg] | (r & Hlast & Hr)].
  { exfalso. unfold Binary64.loop_condition in Hg. rewrite Ht in Hg. done. }
  split; [| split].
  - intros Hnil. rewrite Hnil in Hlast. done.
  - exact Hlen.
  - exists r. split; [done |]. exact Hr.
Qed.

Lemma payoff_cap_or_NaN_witness :
  Binary64.gtb (Binary64.of_Z 315000) (Binary64.of_Z 0) = true /\
  Binary64.leb (Binary64.of_Z 1) (Binary64.of_Z 360) = true /\
  let rows := Binary64.calculateSchedule (Binary64.of_Z 315000) (Binary64.decimal 354 100)
                (Binary64.of_Z 360) (2025%Z, 12%Z) zeroPayments64 in
  rows <> [] /\
  (length rows <= 1199)%nat /\
  exists r, last rows = Some r /\
    (Binary64.leb (Binary64.balanceAfter r) Binary64.epsilon = true \/
     length rows = 1199%nat \/
     Binary64.balanceAfter r = S754_nan).
Proof.
  split; [reflexivity |]. split; [reflexivity |].
  apply (payoff_cap_or_NaN (Binary64.of_Z 315000)); reflexivity.
Defined.

(** C3.  For every input, [calculateSchedule] returns (the function is
    total: its loop is defined by recursion on [1200 - index]) a sequence
    of at most 1199 rows, whose month indices are 1, 2, 3, ... in order. *)
Theorem schedule_length_bound principal annualRate termMonths startMonth overrides :
  let rows := calculateSchedule principal annualRate termMonths startMonth overrides in
  (length rows <= 1199)%nat /\
  map monthIndex rows = seqZ 1 (Z.of_nat (length rows)).
Proof.
  cbv zeta. split; [| apply calculateSchedule_monthIndex].
  destruct (calculateSchedule_cases principal annualRate termMonths startMonth
              overrides) as [Hnil | (Hp & Ht & Hrun)].
  - rewrite Hnil. simpl. lia.
  - apply run_length in Hrun. simpl in Hrun. lia.
Qed.

(** C4.  In every row, [actualPayment] is the override stored for the
    row's month index when there is one and it is a finite number, and the
    row's [plannedPayment] otherwise; an absent entry is never read as a
    payment of zero. *)
Theorem actualPayment_override principal annualRate termMonths startMonth overrides :
  let rows := calculateSchedule principal annualRate termMonths startMonth overrides in
  Forall (fun r => actualPayment r =
                   paymentFor (overrides !! monthIndex r) (plannedPayment r)) rows.
Proof.
  cbv zeta.
  destruct (calculateSchedule_cases principal annualRate termMonths startMonth
              overrides) as [Hnil | (Hp & Ht & Hrun)].
  - rewrite Hnil. constructor.
  - eapply Forall_impl; [by eapply run_rows |].
    intros r (bal & i & d & ->). apply row_actualPayment.
Qed.

(** C5, as stated, fails on doubles: on the overflowing loan every row has
    a [principalPaid] of NaN, which is not at most the entering balance,
    and a [balanceAfter] of NaN, which equals nothing. *)
Lemma principalPaid_NaN_counterexample :
  map Binary64.principalPaid overflowing_loan = replicate 12 S754_nan /\
  map Binary64.balanceAfter overflowing_loan = replicate 12 S754_nan /\
  Binary64.leb S754_nan (Binary64.of_Z (10 ^ 308)) = false /\
  SFeqb S754_nan (Binary64.sub (Binary64.of_Z (10 ^ 308)) S754_nan) = false.
Proof. vm_compute. repeat split. Qed.

(** C5, amended.  When the principal and the override values are doubles,
    in every row [principalPaid] is never above the balance that entered
    the month, [balanceAfter] is never below zero, and [balanceAfter] is
    the double that the subtraction of [principalPaid] from that balance
    gives: the clamp at zero never changes it.  (When [principalPaid] is
    NaN, so is [balanceAfter].) *)
Theorem principalPaid_balance_unless_NaN
    principal annualRate termMonths startMonth overrides :
  Binary64.valid_double principal ->
  map_Forall (fun _ v => Binary64.valid_double v) overrides ->
  Forall (fun '(r, balance) =>
            Binary64.gtb (Binary64.principalPaid r) balance = false /\
            Binary64.balanceAfter r = Binary64.sub balance (Binary64.principalPaid r) /\
            Binary64.gtb (Binary64.of_Z 0) (Binary64.balanceAfter r) = false)
    (Binary64.withEntering principal
       (Binary64.calculateSchedule principal annualRate termMonths startMonth overrides)).
Proof.
  intros Hv Ho.
  destruct (double_calculateSchedule_cases principal annualRate termMonths
              startMonth overrides) as [-> | (Hp & Ht & Hrun)]; [constructor |].
  refine (double_run_withEntering _ _ _ _ _ _ _ _ _ Hrun _).
  - intros b i d Hb. split; [| split].
    + by apply double_row_principalPaid_balance.
    + by apply double_row_principalPaid_balance.
    + apply gtb_0_nonneg, double_row_balanceAfter_cases.
  - by apply double_calculateSchedule_entering.
Qed.

Lemma principalPaid_balance_unless_NaN_witness :
  Binary64.valid_double (Binary64.of_Z 1000) /\
  map_Forall (fun _ v => Binary64.valid_double v)
    ({[ 1%Z := Binary64.of_Z 700 ]} : gmap Z spec_float) /\
  Forall (fun '(r, balance) =>
            Binary64.gtb (Binary64.principalPaid r) balance = false /\
            Binary64.balanceAfter r = Binary64.sub balance (Binary64.principalPaid r) /\
            Binary64.gtb (Binary64.of_Z 0) (Binary64.balanceAfter r) = false)
    (Binary64.withEntering (Binary64.of_Z 1000)
       (Binary64.calculateSchedule (Binary64.of_Z 1000) (Binary64.of_Z 12)
          (Binary64.of_Z 2) (2025%Z, 12%Z) {[ 1%Z := Binary64.of_Z 700 ]})).
Proof.
  assert (Ho : map_Forall (fun _ v => Binary64.valid_double v)
                 ({[ 1%Z := Binary64.of_Z 700 ]} : gmap Z spec_float)).
  { apply map_Forall_singleton. reflexivity. }
  split; [reflexivity |]. split; [exact Ho |].
  apply (principalPaid_balance_unless_NaN (Binary64.of_Z 1000)); [reflexivity | exact Ho].
Defined.

(** The subtraction rounds: a payment of 0.3 on a balance of 1e16 (no
    interest) is booked as 0.3 of principal, and the balance it leaves is
    1e16 again, the double nearest to 9999999999999999.7. *)
Example principalPaid_rounded_away :
  let rows := Binary64.calculateSchedule (Binary64.of_Z (10 ^ 16)) (Binary64.of_Z 0)
                (Binary64.of_Z 12) (2025%Z, 12%Z) {[ 1%Z := Binary64.decimal 3 10 ]} in
  (fun r => (Binary64.principalPaid r, Binary64.balanceAfter r)) <$> head rows
  = Some (Binary64.decimal 3 10, Binary64.of_Z (10 ^ 16)).
Proof. vm_compute. reflexivity. Qed.

(** C6, as stated, fails on doubles: on the overflowing loan
    [extraPayment] and [shortfall] are both NaN in every row, so neither
    of them is zero. *)
Lemma extra_shortfall_NaN_counterexample :
  map Binary64.extraPayment overflowing_loan = replicate 12 S754_nan /\
  map Binary64.shortfall overflowing_loan = replicate 12 S754_nan /\
  SFeqb S754_nan (Binary64.of_Z 0) = false.
Proof. vm_compute. repeat split. Qed.

(** C6, amended.  In every row, [extraPayment] and [shortfall] are both
    NaN or one of them is +0: they are never both positive. *)
Theorem extra_shortfall_exclusive_unless_NaN
    principal annualRate termMonths startMonth overrides :
  Forall (fun r =>
            (Binary64.extraPayment r = S754_nan /\ Binary64.shortfall r = S754_nan) \/
            Binary64.extraPayment r = Binary64.of_Z 0 \/
            Binary64.shortfall r = Binary64.of_Z 0)
    (Binary64.calculateSchedule principal annualRate termMonths startMonth overrides).
Proof.
  destruct (double_calculateSchedule_cases principal annualRate termMonths
              startMonth overrides) as [-> | (Hp & Ht & Hrun)]; [constructor |].
  eapply Forall_impl; [by eapply double_run_rows |].
  intros r (bal & i & d & ->). apply double_row_extra_shortfall.
Qed.

(** C7.  A principal or a term that is not positive gives the empty
    schedule, whatever the other parameters are. *)
Theorem degenerate_input_empty principal annualRate termMonths startMonth overrides :
  principal ≤ 0 \/ termMonths ≤ 0 ->
  calculateSchedule principal annualRate termMonths startMonth overrides = [].
Proof. apply calculateSchedule_empty. Qed.

Lemma degenerate_input_empty_witness :
  calculateSchedule 0 (Q2Qc (354 # 100)) (Qc_of_Z 360) (2025%Z, 12%Z) ∅ = [].
Proof.
  apply degenerate_input_empty. left. vm_compute. discriminate.
Defined.

(** C8.  The reference scenario: 315000 at 3.54 % over 360 months, first
    due in December 2025, no overrides.  Row 1 plans 929.25 of interest and
    875.00 of principal, 1804.25 in all, and leaves a balance of 314125.00. *)
Theorem reference_scenario_first_row :
  exists r,
    head (calculateSchedule (Qc_of_Z 315000) (Q2Qc (354 # 100)) (Qc_of_Z 360)
            (2025%Z, 12%Z) ∅) = Some r /\
    monthIndex r = 1%Z /\
    plannedInterest r = Q2Qc (92925 # 100) /\
    plannedPrincipal r = Qc_of_Z 875 /\
    plannedPayment r = Q2Qc (180425 # 100) /\
    balanceAfter r = Qc_of_Z 314125.
Proof.
  eexists. split.
  - apply calculateSchedule_head; vm_compute; done.
  - split; [reflexivity |].
    repeat split; apply Qc_is_canon; vm_compute; reflexivity.
Qed.

(** The same figures come out of the first iteration in double precision:
    none of the four is affected by rounding. *)
Lemma reference_scenario_binary64 :
  let monthlyRate :=
    Binary64.div (Binary64.div (Binary64.decimal 354 100) (Binary64.of_Z 100))
      (Binary64.of_Z 12) in
  let r := Binary64.computeRow (Binary64.of_Z 360) monthlyRate ∅
             (Binary64.of_Z 315000) 1 (parseMonthInput (2025%Z, 12%Z)) in
  Binary64.plannedInterest r = Binary64.decimal 92925 100 /\
  Binary64.plannedPrincipal r = Binary64.of_Z 875 /\
  Binary64.plannedPayment r = Binary64.decimal 180425 100 /\
  Binary64.balanceAfter r = Binary64.of_Z 314125.
Proof. vm_compute. repeat split. Qed.

(** C9, as stated, fails on doubles: the first 11 rows of the overflowing
    loan leave a balance of NaN, which is not above epsilon; the loop goes
    on because NaN is not at most epsilon either. *)
Lemma unsettled_NaN_counterexample :
  map Binary64.balanceAfter (removelast overflowing_loan) = replicate 11 S754_nan /\
  Binary64.gtb S754_nan Binary64.epsilon = false /\
  Binary64.leb S754_nan Binary64.epsilon = false.
Proof. vm_compute. repeat split. Qed.

(** C9, amended.  Every row except the last leaves a balance that is above
    epsilon or NaN: the loop stops at the first row whose [balanceAfter]
    is at most epsilon. *)
Theorem settled_row_is_last_unless_NaN
    principal annualRate termMonths startMonth overrides :
  Forall (fun r =>
            Binary64.gtb (Binary64.balanceAfter r) Binary64.epsilon = true \/
            Binary64.balanceAfter r = S754_nan)
    (removelast
       (Binary64.calculateSchedule principal annualRate termMonths startMonth overrides)).
Proof.
  destruct (double_calculateSchedule_cases principal annualRate termMonths
              startMonth overrides) as [-> | (Hp & Ht & Hrun)]; [constructor |].
  eapply Forall_impl; [by eapply double_run_removelast |].
  intros r Hr. simpl in Hr. destruct (leb_epsilon_false _ Hr); auto.
Qed.




(** * Further properties *)

(** ** The generator on doubles: length, months, payments *)

(** Rows are numbered 1, 2, ... in order. *)
Lemma double_calculateSchedule_monthIndex principal annualRate termMonths startMonth overrides :
  let rows := Binary64.calculateSchedule principal annualRate termMonths startMonth overrides in
  map Binary64.monthIndex rows = seqZ 1 (Z.of_nat (length rows)).
Proof.
  cbv zeta.
  destruct (double_calculateSchedule_cases principal annualRate termMonths startMonth
              overrides) as [Hnil | (Hp & Ht & Hrun)].
  - by rewrite Hnil.
  - set (rows := Binary64.calculateSchedule _ _ _ _ _) in *.
    apply list_eq. intros k. rewrite list_lookup_fmap.
    destruct (rows !! k) as [r|] eqn:Hk; simpl.
    + rewrite (double_run_lookup _ _ _ _ _ _ _ Hrun k r Hk).
      apply lookup_lt_Some in Hk. symmetry.
      rewrite lookup_seqZ. split; lia.
    + apply lookup_ge_None in Hk. symmetry. apply lookup_seqZ_ge. lia.
Qed.

(** On doubles too the generator returns for every input, with at most
    1199 rows, numbered 1, 2, ... without a gap. *)
Theorem double_schedule_length_bound principal annualRate termMonths startMonth overrides :
  let rows := Binary64.calculateSchedule principal annualRate termMonths startMonth overrides in
  (length rows <= 1199)%nat /\
  map Binary64.monthIndex rows = seqZ 1 (Z.of_nat (length rows)).
Proof.
  cbv zeta. split; [| apply double_calculateSchedule_monthIndex].
  destruct (double_calculateSchedule_cases principal annualRate termMonths startMonth
              overrides) as [Hnil | (Hp & Ht & Hrun)].
  - rewrite Hnil. simpl. lia.
  - apply double_run_length in Hrun. simpl in Hrun. lia.
Qed.

(** On doubles too the payment of a month is its override when that is a
    finite number, and the planned payment otherwise. *)
Theorem double_actualPayment_override principal annualRate termMonths startMonth overrides :
  let rows := Binary64.calculateSchedule principal annualRate termMonths startMonth overrides in
  Forall (fun r => Binary64.actualPayment r =
                   Binary64.paymentFor (overrides !! Binary64.monthIndex r)
                     (Binary64.plannedPayment r)) rows.
Proof.
  cbv zeta.
  destruct (double_calculateSchedule_cases principal annualRate termMonths startMonth
              overrides) as [Hnil | (Hp & Ht & Hrun)].
  - rewrite Hnil. constructor.
  - eapply Forall_impl; [by eapply double_run_rows |].
    intros r (bal & i & d & ->). reflexivity.
Qed.

(** On doubles too a principal or a term that is at most zero gives the
    empty schedule.  (NaN is not at most zero: see [NaN_principal].) *)
Theorem double_degenerate_input_empty principal annualRate termMonths startMonth overrides :
  Binary64.leb principal (Binary64.of_Z 0) = true \/
  Binary64.leb termMonths (Binary64.of_Z 0) = true ->
  Binary64.calculateSchedule principal annualRate termMonths startMonth overrides = [].
Proof.
  intros H. unfold Binary64.calculateSchedule.
  destruct H as [-> | ->]; [done |]. by rewrite orb_true_r.
Qed.

Lemma double_degenerate_input_empty_witness :
  Binary64.calculateSchedule (Binary64.of_Z 0) (Binary64.decimal 354 100)
    (Binary64.of_Z 360) (2025%Z, 12%Z) ∅ = [].
Proof.
  apply double_degenerate_input_empty. left. reflexivity.
Defined.

(** ** What an override does to its month *)

(** The three regimes do not meet where exact arithmetic puts the borders.
    On a balance of 0.2 with 0.1 of interest due, a payment of
    0.1 + 0.2 = 0.30000000000000004 is at most interest plus balance as
    the program computes the sum, yet the rest after interest,
    0.20000000000000004, exceeds the balance and is capped. *)
Example override_regimes_border :
  let payment := Binary64.add (Binary64.decimal 1 10) (Binary64.decimal 2 10) in
  let rows := Binary64.calculateSchedule (Binary64.decimal 2 10) (Binary64.of_Z 600)
                (Binary64.of_Z 12) (2025%Z, 12%Z) {[ 1%Z := payment ]} in
  exists r,
    head rows = Some r /\
    Binary64.plannedInterest r = Binary64.decimal 1 10 /\
    Binary64.leb (Binary64.plannedInterest r) payment = true /\
    Binary64.leb payment
      (Binary64.add (Binary64.plannedInterest r) (Binary64.decimal 2 10)) = true /\
    Binary64.principalPaid r = Binary64.decimal 2 10 /\
    SFeqb (Binary64.principalPaid r)
          (Binary64.sub payment (Binary64.plannedInterest r)) = false.
Proof.
  intros payment rows. eexists. split; [vm_compute; reflexivity |]. repeat split.
Qed.

(** The regimes of a finite override [v], on the comparisons the program
    makes.  Below zero, or at most the planned interest: no principal is
    paid and the balance stays.  Otherwise the rest after interest,
    [v - plannedInterest] as a double, is the principal paid when it does
    not exceed the balance, and the whole balance is paid when it does. *)
Theorem override_regimes_binary64 principal annualRate termMonths startMonth overrides
    (r : Binary64.ScheduleRow) (balance v : spec_float) :
  (r, balance) ∈ Binary64.withEntering principal
    (Binary64.calculateSchedule principal annualRate termMonths startMonth overrides) ->
  overrides !! Binary64.monthIndex r = Some v ->
  Binary64.Number_isFinite v = true ->
  Binary64.actualPayment r = v /\
  (Binary64.leb v (Binary64.plannedInterest r) = true ->
     SFeqb (Binary64.interestPaid r) v = true /\
     Binary64.principalPaid r = Binary64.of_Z 0 /\
     Binary64.balanceAfter r = balance) /\
  (Binary64.leb (Binary64.plannedInterest r) v = true ->
     SFeqb (Binary64.interestPaid r) (Binary64.plannedInterest r) = true /\
     (Binary64.gtb (Binary64.sub v (Binary64.plannedInterest r)) balance = false ->
        Binary64.principalPaid r =
          Binary64.Math_max (Binary64.sub v (Binary64.plannedInterest r))
            (Binary64.of_Z 0)) /\
     (Binary64.gtb (Binary64.sub v (Binary64.plannedInterest r)) balance = true ->
        Binary64.principalPaid r = balance /\
        Binary64.balanceAfter r = Binary64.of_Z 0 /\
        last (Binary64.calculateSchedule principal annualRate termMonths startMonth
                overrides) = Some r)).
Proof.
  intros Hin Hov Hfin.
  destruct (double_calculateSchedule_cases principal annualRate termMonths startMonth
              overrides) as [Hnil | (Hp & Ht & Hrun)].
  { rewrite Hnil in Hin. by apply elem_of_nil in Hin. }
  pose proof (double_calculateSchedule_positive principal annualRate termMonths
                startMonth overrides) as Hrows.
  set (rows := Binary64.calculateSchedule _ _ _ _ _) in *.
  apply list_elem_of_lookup in Hin as [k Hk].
  assert (rows !! k = Some r) as Hrow.
  { unfold Binary64.withEntering in Hk. apply lookup_zip_with_Some in Hk
      as (r' & b' & [= <- <-] & Hr & _). done. }
  rewrite Forall_lookup in Hrows.
  destruct (Hrows _ _ Hk) as (Hbal & i & d & Heq).
  rewrite Heq in Hov. cbn [Binary64.monthIndex Binary64.computeRow] in Hov.
  destruct (double_row_override_regimes termMonths
              (Binary64.div (Binary64.div annualRate (Binary64.of_Z 100))
                 (Binary64.of_Z 12))
              overrides balance i d v Hbal Hov Hfin)
    as (Hactual & Hlow & Hhigh).
  rewrite <- Heq in Hactual, Hlow, Hhigh.
  split; [exact Hactual |]. split; [exact Hlow |].
  intros Hv. destruct (Hhigh Hv) as (Hinterest & Hmid & Htop).
  split; [exact Hinterest |]. split; [exact Hmid |].
  intros Hgt. destruct (Htop Hgt) as [Hpaid Hafter].
  repeat split; try done.
  eapply double_run_settled_last; [exact Hrun | exact Hrow |].
  by rewrite Hafter.
Qed.

Lemma override_regimes_binary64_witness :
  let overrides : gmap Z spec_float := {[ 1%Z := Binary64.of_Z 5000 ]} in
  let monthlyRate :=
    Binary64.div (Binary64.div (Binary64.of_Z 12) (Binary64.of_Z 100)) (Binary64.of_Z 12) in
  let r := Binary64.computeRow (Binary64.of_Z 24) monthlyRate overrides
             (Binary64.of_Z 1000) 1 (parseMonthInput (2025%Z, 12%Z)) in
  let v := Binary64.of_Z 5000 in
  let balance := Binary64.of_Z 1000 in
  Binary64.actualPayment r = v /\
  (Binary64.leb v (Binary64.plannedInterest r) = true ->
     SFeqb (Binary64.interestPaid r) v = true /\
     Binary64.principalPaid r = Binary64.of_Z 0 /\
     Binary64.balanceAfter r = balance) /\
  (Binary64.leb (Binary64.plannedInterest r) v = true ->
     SFeqb (Binary64.interestPaid r) (Binary64.plannedInterest r) = true /\
     (Binary64.gtb (Binary64.sub v (Binary64.plannedInterest r)) balance = false ->
        Binary64.principalPaid r =
          Binary64.Math_max (Binary64.sub v (Binary64.plannedInterest r))
            (Binary64.of_Z 0)) /\
     (Binary64.gtb (Binary64.sub v (Binary64.plannedInterest r)) balance = true ->
        Binary64.principalPaid r = balance /\
        Binary64.balanceAfter r = Binary64.of_Z 0 /\
        last (Binary64.calculateSchedule (Binary64.of_Z 1000) (Binary64.of_Z 12)
                (Binary64.of_Z 24) (2025%Z, 12%Z) overrides) = Some r)).
Proof.
  intros overrides monthlyRate r v balance.
  apply (override_regimes_binary64 (Binary64.of_Z 1000) (Binary64.of_Z 12)
           (Binary64.of_Z 24) (2025%Z, 12%Z) overrides r balance v).
  - vm_compute. left.
  - vm_compute. reflexivity.
  - reflexivity.
Defined.

(** ** NaN *)

(** A balance of NaN stays: the row of a month that starts on NaN pays NaN
    of interest and of principal and leaves NaN. *)
Theorem NaN_balance_stays principal annualRate termMonths startMonth overrides :
  Forall (fun '(r, balance) =>
            balance = S754_nan ->
            Binary64.interestPaid r = S754_nan /\
            Binary64.principalPaid r = S754_nan /\
            Binary64.balanceAfter r = S754_nan)
    (Binary64.withEntering principal
       (Binary64.calculateSchedule principal annualRate termMonths startMonth overrides)).
Proof.
  eapply Forall_impl; [apply double_calculateSchedule_positive |].
  intros [r b] (_ & i & d & ->) ->.
  destruct (double_row_NaN termMonths
              (Binary64.div (Binary64.div annualRate (Binary64.of_Z 100))
                 (Binary64.of_Z 12)) overrides i d) as (_ & H1 & H2 & H3).
  done.
Qed.

(** ** The base plan in double precision *)

(** Without overrides the plan is to repay the balance in equal parts over
    the months that remain, but [principalPaid] is computed as
    (planned principal + interest) - interest, which rounds: 3e15 at 50 %
    over 11 months leaves 0.03125 after month 11 and needs a twelfth row. *)
Example base_plan_overrun :
  let rows := Binary64.calculateSchedule (Binary64.of_Z (3 * 10 ^ 15)) (Binary64.of_Z 50)
                (Binary64.of_Z 11) (2025%Z, 12%Z) ∅ in
  length rows = 12%nat /\
  Binary64.balanceAfter <$> rows !! 10%nat = Some (Binary64.decimal 1 32) /\
  Binary64.balanceAfter <$> last rows = Some (Binary64.of_Z 0).
Proof. vm_compute. repeat split. Qed.

(** * Properties of the page *)

(** ** Writing a map entry per row *)

Section FoldInsert.

Context {R V : Type}.
Variable key : R -> Z.
Variable val : R -> V.

Local Abbreviation write := (fun (m : gmap Z V) row => <[key row := val row]> m).

Lemma foldl_insert_other (rows : list R) (m : gmap Z V) (j : Z) :
  j ∉ key <$> rows -> foldl write m rows !! j = m !! j.
Proof.
  revert m. induction rows as [|r rows IH]; intros m Hj; [done |].
  rewrite fmap_cons, not_elem_of_cons in Hj. destruct Hj as [Hne Hj].
  simpl. rewrite IH by done. by rewrite lookup_insert_ne.
Qed.

Lemma foldl_insert_row (rows : list R) (m : gmap Z V) :
  NoDup (key <$> rows) ->
  Forall (fun r => foldl write m rows !! key r = Some (val r)) rows.
Proof.
  revert m. induction rows as [|r rows IH]; intros m Hnd; [constructor |].
  rewrite fmap_cons in Hnd. apply NoDup_cons in Hnd as [Hr Hnd].
  constructor.
  - simpl. rewrite foldl_insert_other by done. apply lookup_insert_eq.
  - simpl. by apply IH.
Qed.

End FoldInsert.

Lemma double_calculateSchedule_months_NoDup
    principal annualRate termMonths startMonth overrides :
  NoDup (Binary64.monthIndex <$>
           Binary64.calculateSchedule principal annualRate termMonths startMonth overrides).
Proof.
  pose proof (double_calculateSchedule_monthIndex principal annualRate termMonths
                startMonth overrides) as Hmonths.
  cbv zeta in Hmonths. unfold fmap, list_fmap. unfold map in Hmonths.
  rewrite Hmonths. apply NoDup_seqZ.
Qed.

(** ** The handlers, on doubles *)

Section DoublePage.

Import Binary64 Binary64.Page.

Variable Number : string -> spec_float.
Variable toFixed2 : spec_float -> string.

(** What [handleApplyExtra] writes: for the month of every row of the base
    schedule, the sum of the planned payment of that row and [amount], as
    an override and as the text of the input.  Overrides of other months
    are kept; input texts of other months are dropped. *)
Theorem double_handleApplyExtra_effect
    principal annualRate termMonths startMonth (amount : spec_float) (prev : Edits) :
  let base := calculateSchedule principal annualRate termMonths startMonth ∅ in
  let next := handleApplyExtra toFixed2 base amount prev in
  Forall (fun r =>
            overrides next !! monthIndex r = Some (add (plannedPayment r) amount) /\
            inputValues next !! monthIndex r =
              Some (toFixed2 (add (plannedPayment r) amount)))
         base /\
  (forall m : Z, m ∉ monthIndex <$> base ->
     overrides next !! m = overrides prev !! m /\
     inputValues next !! m = None).
Proof.
  intros base next. subst next. unfold handleApplyExtra. cbn [overrides inputValues].
  pose proof (double_calculateSchedule_months_NoDup principal annualRate termMonths
                startMonth ∅) as Hnd. fold base in Hnd.
  split.
  - apply Forall_and. split.
    + by apply (foldl_insert_row monthIndex (fun r => add (plannedPayment r) amount)).
    + by apply (foldl_insert_row monthIndex
                  (fun r => toFixed2 (add (plannedPayment r) amount))).
  - intros m Hm. split.
    + by apply (foldl_insert_other monthIndex (fun r => add (plannedPayment r) amount)).
    + rewrite (foldl_insert_other monthIndex
                 (fun r => toFixed2 (add (plannedPayment r) amount))) by done.
      apply lookup_empty.
Qed.

(** Typing into the payment input of month [index] touches that month
    only: the text is stored as typed; the override of the month becomes
    the number read from the text, and is removed when the text is empty or
    reads as NaN.  So this handler never stores NaN. *)
Theorem double_handleActualPaymentChange_effect (index : Z) (value : string) (prev : Edits) :
  let next := handleActualPaymentChange Number index value prev in
  inputValues next !! index = Some value /\
  delete index (inputValues next) = delete index (inputValues prev) /\
  delete index (overrides next) = delete index (overrides prev) /\
  overrides next !! index =
    (if bool_decide (value = EmptyString) || Number_isNaN (Number value)
     then None else Some (Number value)) /\
  overrides next !! index <> Some S754_nan.
Proof.
  intros next. subst next. unfold handleActualPaymentChange.
  cbn [overrides inputValues].
  split; [apply lookup_insert_eq |].
  split; [apply delete_insert_eq |].
  destruct (bool_decide (value = EmptyString) || Number_isNaN (Number value)) eqn:Hdel.
  - rewrite delete_delete_eq, lookup_delete_eq. done.
  - rewrite delete_insert_eq, lookup_insert_eq. repeat split.
    apply orb_false_iff in Hdel as [_ Hnan].
    intros [= Heq]. by rewrite Heq in Hnan.
Qed.

End DoublePage.

(** [handleApplyExtra] does store Infinity and NaN: on the overflowing loan
    the planned payment of month 1 is Infinity and that of every later
    month is NaN. *)
Example apply_extra_stores_NaN :
  let next := Binary64.Page.handleApplyExtra (fun _ => EmptyString) overflowing_loan
                (Binary64.of_Z 500)
                {| Binary64.Page.overrides := ∅; Binary64.Page.inputValues := ∅ |} in
  Binary64.Page.overrides next !! 1%Z = Some (S754_infinity false) /\
  Binary64.Page.overrides next !! 2%Z = Some S754_nan /\
  Binary64.Page.overrides next !! 12%Z = Some S754_nan.
Proof. vm_compute. repeat split. Qed.

(** ** The term in months *)

(** The term that the page passes to the generator is NaN or at least one
    month. *)
Theorem page_termMonths_at_least_1 (termYears : spec_float) :
  Binary64.Page.termMonths termYears = S754_nan \/
  Binary64.leb (Binary64.of_Z 1) (Binary64.Page.termMonths termYears) = true.
Proof. apply double_Math_max_ge_r. Qed.

(** 30 years are 360 months; the product 0.4583333333333333 * 12 is 5.5 in
    double precision and rounds up to 6 months; a product below one month
    gives 1; a NaN term stays NaN. *)
Example page_termMonths_examples :
  Binary64.Page.termMonths (Binary64.of_Z 30) = Binary64.of_Z 360 /\
  Binary64.mul (Binary64.decimal 4583333333333333 10000000000000000) (Binary64.of_Z 12)
    = Binary64.decimal 55 10 /\
  Binary64.Page.termMonths (Binary64.decimal 4583333333333333 10000000000000000)
    = Binary64.of_Z 6 /\
  Binary64.Page.termMonths (Binary64.decimal 1 100) = Binary64.of_Z 1 /\
  Binary64.Page.termMonths S754_nan = S754_nan.
Proof. vm_compute. repeat split. Qed.

(** ** The handlers, on the exact reading *)


Section HandlerFacts.

Import MortgagePlannerPage.

Variable Number : string -> number.
Variable toFixed2 : Qc -> string.


(** Typing into the payment input of month [index] touches that month
    only: the text is stored as typed; the override of the month becomes
    the number read from the text, and is removed when the text is empty
    or reads as NaN.  So this handler never stores NaN. *)
Theorem handleActualPaymentChange_effect (index : Z) (value : string) (prev : Edits) :
  let next := handleActualPaymentChange Number index value prev in
  inputValues next !! index = Some value /\
  delete index (inputValues next) = delete index (inputValues prev) /\
  delete index (overrides next) = delete index (overrides prev) /\
  overrides next !! index =
    (if bool_decide (value = EmptyString) || Number_isNaN (Number value)
     then None else Some (Number value)) /\
  overrides next !! index ≠ Some NaN.
Proof.
  intros next. subst next. unfold handleActualPaymentChange.
  cbn [overrides inputValues].
  split; [apply lookup_insert_eq |].
  split; [apply delete_insert_eq |].
  destruct (bool_decide (value = EmptyString) || Number_isNaN (Number value)) eqn:Hdel.
  - rewrite delete_delete_eq, lookup_delete_eq. done.
  - rewrite delete_insert_eq, lookup_insert_eq. repeat split.
    apply orb_false_iff in Hdel as [_ Hnan].
    intros [= Heq]. by rewrite Heq in Hnan.
Qed.

End HandlerFacts.

(** ** Interest and principal of a payment *)

Section DoubleSplit.

Import Binary64.
Local Open Scope Z_scope.

(** [Math.min(a, b)] is NaN or at most [a] and at most [b]. *)
Lemma Math_min_le a b :
  Math_min a b = S754_nan \/
  (leb (Math_min a b) a = true /\ leb (Math_min a b) b = true).
Proof.
  unfold Math_min, leb, SFleb.
  destruct (SFcompare a b) as [[]|] eqn:E; [| | | by left]; right.
  - assert (Ha : SFcompare a a = Some Eq)
      by (eapply SFcompare_refl, SFcompare_not_nan_l; exact E).
    assert (Hb : SFcompare b b = Some Eq)
      by (eapply SFcompare_refl, SFcompare_not_nan_r; exact E).
    pose proof (SFcompare_antisym _ _ _ E) as E'.
    destruct a as [[]| | |]; rewrite ?Ha, ?Hb, ?E, ?E'; done.
  - rewrite E, SFcompare_refl; [done |]. eapply SFcompare_not_nan_l; exact E.
  - rewrite (SFcompare_antisym _ _ _ E), SFcompare_refl; [done |].
    eapply SFcompare_not_nan_r; exact E.
Qed.

Variable termMonths : spec_float.
Variable monthlyRate : spec_float.
Variable overrides : gmap Z spec_float.

Local Abbreviation row_of := (computeRow termMonths monthlyRate overrides).

Lemma double_row_payment_split balance index due :
  balance = S754_nan \/ positive_double balance ->
  let row := row_of balance index due in
  (interestPaid row = S754_nan \/
   (leb (interestPaid row) (actualPayment row) = true /\
    leb (interestPaid row) (plannedInterest row) = true)) /\
  (principalPaid row = S754_nan \/ leb (of_Z 0) (principalPaid row) = true).
Proof.
  intros Hb row. split.
  - apply Math_min_le.
  - unfold row. rewrite double_row_principalPaid_eq. cbv zeta.
    destruct (gtb _ balance).
    + destruct Hb as [-> | Hb]; [by left | right].
      by apply leb_0_nonneg, positive_nonneg.
    + destruct (Math_max_0_cases (sub (actualPayment (row_of balance index due))
                                      (interestPaid (row_of balance index due))))
        as [-> | H]; [by left | right]. by apply leb_0_nonneg.
Qed.

(** A month without a finite override pays what it plans; the payment is
    then neither above nor below the plan, provided the plan is a finite
    number. *)
Lemma double_row_as_planned balance index due :
  (forall v, overrides !! index = Some v -> Number_isFinite v = false) ->
  let row := row_of balance index due in
  actualPayment row = plannedPayment row /\
  (Number_isFinite (plannedPayment row) = true ->
   extraPayment row = of_Z 0 /\ shortfall row = of_Z 0).
Proof.
  intros Hov row.
  assert (Hactual : actualPayment row = plannedPayment row).
  { unfold row, computeRow. cbn [actualPayment plannedPayment].
    destruct (overrides !! index) as [v|] eqn:Hv; [| done].
    by rewrite (Hov v). }
  split; [done |]. intros Hfin.
  change (extraPayment row)
    with (Math_max (sub (actualPayment row) (plannedPayment row)) (of_Z 0)).
  change (shortfall row)
    with (Math_max (sub (plannedPayment row) (actualPayment row)) (of_Z 0)).
  rewrite Hactual, sub_diag by done. done.
Qed.

End DoubleSplit.

(** In every row, the interest paid is NaN or at most the payment and at
    most the planned interest, and the principal paid is NaN or at least
    zero. *)
Theorem payment_split_binary64 principal annualRate termMonths startMonth overrides :
  Forall (fun r =>
            (Binary64.interestPaid r = S754_nan \/
             (Binary64.leb (Binary64.interestPaid r) (Binary64.actualPayment r) = true /\
              Binary64.leb (Binary64.interestPaid r) (Binary64.plannedInterest r) = true)) /\
            (Binary64.principalPaid r = S754_nan \/
             Binary64.leb (Binary64.of_Z 0) (Binary64.principalPaid r) = true))
    (Binary64.calculateSchedule principal annualRate termMonths startMonth overrides).
Proof.
  pose proof (double_calculateSchedule_positive principal annualRate termMonths
                startMonth overrides) as Hrows.
  apply Forall_forall. intros r Hr.
  assert (exists b, (r, b) ∈ Binary64.withEntering principal
            (Binary64.calculateSchedule principal annualRate termMonths startMonth overrides))
    as [b Hin].
  { apply list_elem_of_lookup in Hr as [k Hk].
    destruct (lookup_lt_is_Some_2
                (Binary64.enteringBalances principal
                   (Binary64.calculateSchedule principal annualRate termMonths
                      startMonth overrides)) k) as [b Hb].
    { unfold Binary64.enteringBalances. simpl. rewrite length_map.
      apply lookup_lt_Some in Hk. lia. }
    exists b. apply list_elem_of_lookup. exists k.
    unfold Binary64.withEntering. apply lookup_zip_with_Some. eauto. }
  rewrite Forall_forall in Hrows.
  destruct (Hrows _ Hin) as (Hb & i & d & ->).
  by apply double_row_payment_split.
Qed.

(** A month whose override is absent or not finite follows its plan. *)
Theorem month_without_override_binary64
    principal annualRate termMonths startMonth overrides :
  Forall (fun r =>
            (forall v, overrides !! Binary64.monthIndex r = Some v ->
                       Binary64.Number_isFinite v = false) ->
            Binary64.actualPayment r = Binary64.plannedPayment r /\
            (Binary64.Number_isFinite (Binary64.plannedPayment r) = true ->
             Binary64.extraPayment r = Binary64.of_Z 0 /\
             Binary64.shortfall r = Binary64.of_Z 0))
    (Binary64.calculateSchedule principal annualRate termMonths startMonth overrides).
Proof.
  destruct (double_calculateSchedule_cases principal annualRate termMonths
              startMonth overrides) as [-> | (Hp & Ht & Hrun)]; [constructor |].
  eapply Forall_impl; [by eapply double_run_rows |].
  intros r (bal & i & d & ->) Hov. by apply double_row_as_planned.
Qed.
